(** * invideo GPU services: transcription pipeline and embedding endpoint

    A shallow embedding of [scripts/whisperx-service.py] and of the request
    validation of [scripts/embedding-service.py].

    Python [float]s are idealised as rationals ([Q]), Python [int]s are [Z],
    [str] is [string].  The process-wide globals of the service and the part
    of the file system it touches form an explicit [state]; everything the
    service only observes (the yt-dlp subprocess, the speech model, the
    remote store) is an oracle collected in [world]. *)

From Stdlib Require Import List String Ascii Bool ZArith QArith Qround Qminmax Lia Lqa Sorted.
Import ListNotations.
Local Open Scope string_scope.
Local Open Scope Z_scope.

(** ** Python primitives *)

Definition len {A : Type} (l : list A) : Z := Z.of_nat (List.length l).

Definition str_len (s : string) : Z := Z.of_nat (String.length s).

(** Truth value of a [str]: only the empty string is falsy. *)
Definition truthy (s : string) : bool := negb (s =? "")%string.

(** Truth value of an [Optional[str]], as read from [os.environ.get]. *)
Definition truthy_opt (o : option string) : bool :=
  match o with
  | Some s => truthy s
  | None => false
  end.

(** [str.isspace] on the ASCII range. *)
Definition isspace (c : ascii) : bool :=
  let n := nat_of_ascii c in
  (((9 <=? n) && (n <=? 13)) || ((28 <=? n) && (n <=? 32)))%nat.

Fixpoint lstrip (s : string) : string :=
  match s with
  | EmptyString => EmptyString
  | String c s' => if isspace c then lstrip s' else s
  end.

Fixpoint rstrip (s : string) : string :=
  match s with
  | EmptyString => EmptyString
  | String c s' =>
      match rstrip s' with
      | EmptyString => if isspace c then EmptyString else String c EmptyString
      | r => String c r
      end
  end.

Definition strip (s : string) : string := rstrip (lstrip s).

(** [s[:n]] *)
Definition take_str (n : nat) (s : string) : string := substring 0 n s.

(** [int(x)] on a float: truncation toward zero. *)
Definition int (x : Q) : Z :=
  if Qle_bool 0 x then Qfloor x else Qceiling x.

(** Rounding to the nearest integer, ties to even. *)
Definition round_half_even (x : Q) : Z :=
  let f := Qfloor x in
  match (x - inject_Z f ?= 1 # 2)%Q with
  | Lt => f
  | Gt => f + 1
  | Eq => if Z.even f then f else f + 1
  end.

(** [round(x, ndigits)] *)
Definition round (x : Q) (ndigits : nat) : Q :=
  let p := inject_Z (10 ^ Z.of_nat ndigits) in
  (inject_Z (round_half_even (x * p)) / p)%Q.

(** [x or default] on a float: zero is falsy. *)
Definition float_or (x default : Q) : Q :=
  if Qeq_bool x 0 then default else x.

(** ** Exceptions *)

Inductive detail : Type :=
| InvalidVideoId                        (* "Invalid video_id" *)
| GpuBusy                               (* "GPU busy with another transcription" *)
| SupabaseNotConfigured                 (* "Supabase env vars not configured on GPU server" *)
| AudioDownloadFailed (excerpt : string)(* "Audio download failed: {stderr[:300]}" *)
| NoAudioFile (excerpt : string)        (* "No audio file found. stdout: {stdout[:200]}" *)
| AudioTooSmall (fsize : Z)             (* "Audio too small ({fsize} bytes)" *)
| AudioTooLarge (fsize limit : Z)       (* "Audio too large ({fsize:,} bytes, max {limit:,})" *)
| Str (msg : string)                    (* str(e) *)
| EmptyTexts                            (* "Empty texts list" *)
| MaxTexts.                             (* "Max 256 texts per request" *)

(** [Exception msg] stands for every exception that is not an
    [HTTPException] (RuntimeError, OSError, TimeoutExpired, URLError, ...);
    [msg] is its [str]. *)
Inductive exn : Type :=
| HTTPException (status_code : Z) (d : detail)
| Exception (msg : string).

Definition status_of (e : exn) : option Z :=
  match e with
  | HTTPException c _ => Some c
  | Exception _ => None
  end.

Inductive result (A : Type) : Type :=
| Return (a : A)
| Raise (e : exn).
Arguments Return {A} a.
Arguments Raise {A} e.

(** What a call into the outside gives: a value, or an exception that is
    not an [HTTPException], with its message. *)
Inductive outcome (A : Type) : Type :=
| Ok (a : A)
| Fails (msg : string).
Arguments Ok {A} a.
Arguments Fails {A} msg.

Definition result_of {A : Type} (o : outcome A) : result A :=
  match o with
  | Ok a => Return a
  | Fails msg => Raise (Exception msg)
  end.

(** ** Data *)

(** A word and a segment as yielded by faster-whisper. *)
Record Word : Type := mkWord {
  word : string;
  w_start : Q
}.

Record Segment : Type := mkSegment {
  s_text : string;
  s_start : Q;
  s_end : Q;
  s_words : option (list Word)
}.

(** The JSON form of a word and of a segment. *)
Record word_dict : Type := mkWordDict {
  w_text : string;
  startMs : Z
}.

Record seg_dict : Type := mkSegDict {
  text : string;
  offset : Q;
  duration : Q;
  words : option (list word_dict)
}.

(** A generator of segments: it yields [yields] in order, then either
    stops or raises. *)
Record generator : Type := mkGenerator {
  yields : list Segment;
  raises : option string
}.

Record TranscriptionInfo : Type := mkInfo {
  info_duration : Q
}.

Record CompletedProcess : Type := mkCompleted {
  returncode : Z;
  stdout : string;
  stderr : string
}.

(** Bodies of the two outbound POST requests. *)
Record upsert_payload : Type := mkUpsert {
  up_video_id : string;
  up_segments : list seg_dict;
  up_source : string;
  up_segment_count : Z;
  up_duration_seconds : Q
}.

Record heartbeat_params : Type := mkHeartbeat {
  p_job_id : string;
  p_worker_id : string;
  p_status : option string;
  p_progress_pct : option Z;
  p_segments_written : option Z
}.

Inductive http_request : Type :=
| PostTranscripts (body : upsert_payload)     (* /rest/v1/transcripts *)
| PostHeartbeat (body : heartbeat_params).    (* /rest/v1/rpc/heartbeat_job *)

Inductive response : Type :=
| TranscribeResponse (segments : list seg_dict) (duration : Q)
| ProgressiveResponse (segments : list seg_dict) (duration : Q) (segment_count : Z).

Record TranscribeRequest : Type := mkTranscribeRequest {
  video_id : string
}.

Record ProgressiveRequest : Type := mkProgressiveRequest {
  pr_video_id : string;
  job_id : string;
  worker_id : string
}.

(** ** Process state and environment *)

(** Module-level configuration, read once from the process environment. *)
Record config : Type := mkConfig {
  _SUPABASE_URL : option string;
  _SUPABASE_KEY : option string;
  HF_HOME : string
}.

Definition _MAX_AUDIO_BYTES : Z := 1500000000.

(** The globals of the service, the scratch directories that exist under
    [/tmp], and the outbound requests made so far, each with whether
    [urlopen] returned ([true]) or raised ([false]). *)
Record state : Type := mkState {
  _gpu_lock : bool;
  _currently_processing : option string;
  _transcription_count : Z;
  tmp : list string;
  network : list (http_request * bool)
}.

(** What one request observes of the outside. *)
Record world : Type := mkWorld {
  mkdtemp_result : outcome string;
  run_result : outcome CompletedProcess;
  glob_result : list string;
  getsize : string -> Z;
  transcribe_result : outcome (generator * TranscriptionInfo);
  urlopen_ok : http_request -> nat -> bool
}.

(** ** The handler monad: state and exceptions *)

Definition M (A : Type) : Type := state -> result A * state.

Definition ret {A : Type} (a : A) : M A := fun s => (Return a, s).

Definition raise {A : Type} (e : exn) : M A := fun s => (Raise e, s).

Definition bind {A B : Type} (c : M A) (k : A -> M B) : M B :=
  fun s =>
    match c s with
    | (Return a, s') => k a s'
    | (Raise e, s') => (Raise e, s')
    end.

Declare Scope py_scope.
Delimit Scope py_scope with py.
Notation "x <- c ;; k" := (bind c (fun x => k))
  (at level 61, c at next level, right associativity) : py_scope.
Notation "c ;; k" := (bind c (fun _ => k))
  (at level 61, right associativity) : py_scope.
Local Open Scope py_scope.

Definition modify (f : state -> state) : M unit := fun s => (Return tt, f s).

Definition lift {A : Type} (o : outcome A) : M A := fun s => (result_of o, s).

(** [try: body except Exception as e: handler e] *)
Definition try_except {A : Type} (body : M A) (handler : exn -> M A) : M A :=
  fun s =>
    match body s with
    | (Return a, s') => (Return a, s')
    | (Raise e, s') => handler e s'
    end.

(** [try: body finally: final].  An exception raised by [final] replaces
    the outcome of [body]. *)
Definition try_finally {A : Type} (body : M A) (final : M unit) : M A :=
  fun s =>
    match body s with
    | (r, s') =>
        match final s' with
        | (Return _, s'') => (r, s'')
        | (Raise e, s'') => (Raise e, s'')
        end
    end.

(** ** Primitive effects *)

Definition set_gpu_lock (b : bool) (s : state) : state :=
  mkState b (_currently_processing s) (_transcription_count s) (tmp s) (network s).

Definition set_currently_processing (v : option string) (s : state) : state :=
  mkState (_gpu_lock s) v (_transcription_count s) (tmp s) (network s).

Definition incr_transcription_count (s : state) : state :=
  mkState (_gpu_lock s) (_currently_processing s) (_transcription_count s + 1)
          (tmp s) (network s).

Definition set_tmp (t : list string) (s : state) : state :=
  mkState (_gpu_lock s) (_currently_processing s) (_transcription_count s) t (network s).

Definition log_request (c : http_request * bool) (s : state) : state :=
  mkState (_gpu_lock s) (_currently_processing s) (_transcription_count s) (tmp s)
          (network s ++ [c])%list.

(** [_gpu_lock.acquire(blocking=False)] *)
Definition lock_acquire : M bool :=
  fun s => if _gpu_lock s then (Return false, s) else (Return true, set_gpu_lock true s).

(** [_gpu_lock.release()]; releasing an unlocked lock is a RuntimeError. *)
Definition lock_release : M unit :=
  fun s =>
    if _gpu_lock s then (Return tt, set_gpu_lock false s)
    else (Raise (Exception "release unlocked lock"), s).

(** [shutil.rmtree(d, ignore_errors=True)] *)
Definition rmtree (d : string) : M unit :=
  modify (fun s => set_tmp (remove string_dec d (tmp s)) s).

Section Service.

Variable cfg : config.
Variable w : world.

Definition configured : bool :=
  truthy_opt (_SUPABASE_URL cfg) && truthy_opt (_SUPABASE_KEY cfg).

(** [tempfile.mkdtemp(dir="/tmp", prefix="whisperx-")] *)
Definition mkdtemp : M string :=
  fun s =>
    match mkdtemp_result w with
    | Ok d => (Return d, set_tmp (d :: tmp s) s)
    | Fails msg => (Raise (Exception msg), s)
    end.

(** [urlopen(req, timeout=...)]: the request is made, and succeeds or
    raises as the remote end decides. *)
Definition urlopen (req : http_request) : M unit :=
  fun s =>
    let ok := urlopen_ok w req (List.length (network s)) in
    (if ok then Return tt else Raise (Exception "urlopen error"),
     log_request (req, ok) s).

(** ** download_audio *)

Definition download_audio (vid tmpdir : string) (timeout : Z) : M string :=
  r <- lift (run_result w) ;;
  if negb (returncode r =? 0) then
    raise (HTTPException 502 (AudioDownloadFailed (take_str 300 (stderr r))))
  else
    match glob_result w with
    | [] => raise (HTTPException 502 (NoAudioFile (take_str 200 (stdout r))))
    | audio_path :: _ =>
        let fsize := getsize w audio_path in
        if fsize <? 1000 then
          raise (HTTPException 502 (AudioTooSmall fsize))
        else if fsize >? _MAX_AUDIO_BYTES then
          raise (HTTPException 413 (AudioTooLarge fsize _MAX_AUDIO_BYTES))
        else ret audio_path
    end.

(** ** transcribe_audio *)

Definition transcribe_audio (audio_path : string) : M (generator * TranscriptionInfo) :=
  lift (transcribe_result w).

(** ** seg_to_dict *)

Definition word_to_dict (x : Word) : word_dict :=
  mkWordDict (strip (word x)) (int (w_start x * 1000)).

Definition seg_to_dict (s : Segment) : seg_dict :=
  mkSegDict
    (strip (s_text s))
    (round (s_start s) 3)
    (round (s_end s - s_start s) 3)
    (match s_words s with
     | Some ((_ :: _) as ws) =>
         Some (map word_to_dict (filter (fun x => truthy (strip (word x))) ws))
     | _ => None
     end).

(** ** supabase_upsert_segments *)

Definition last_opt {A : Type} (l : list A) : option A :=
  match l with
  | [] => None
  | a :: l' => Some (last l' a)
  end.

(** The [fetched_at] wall-clock stamp of the body is left out. *)
Definition supabase_upsert_segments
    (vid : string) (segments : list seg_dict) (source : string) : M unit :=
  if negb configured then raise (Exception "Supabase env vars not configured")
  else
    let duration_seconds :=
      match last_opt segments with
      | Some last_seg => (offset last_seg + duration last_seg)%Q
      | None => (0 + 0)%Q
      end in
    urlopen (PostTranscripts
               (mkUpsert vid segments source (len segments) (round duration_seconds 1))).

(** ** supabase_heartbeat *)

Definition supabase_heartbeat
    (job worker : string) (status : option string)
    (progress_pct segments_written : option Z) : M unit :=
  if negb configured then ret tt
  else
    let params :=
      mkHeartbeat job worker
        (if truthy_opt status then status else None)
        progress_pct segments_written in
    try_except (urlopen (PostHeartbeat params)) (fun _ => ret tt).

(** ** The handlers *)

(** [except HTTPException: raise / except Exception as e: raise HTTPException(500, str(e))] *)
Definition reraise_as_500 {A : Type} (body : M A) : M A :=
  try_except body
    (fun e =>
       match e with
       | HTTPException _ _ => raise e
       | Exception msg => raise (HTTPException 500 (Str msg))
       end).

(** Exhausting a generator: what it raises, if anything, propagates. *)
Definition exhausted (g : generator) : M unit :=
  match raises g with
  | Some msg => raise (Exception msg)
  | None => ret tt
  end.

(** [for s in segs_gen: segments.append(seg_to_dict(s))] *)
Definition collect (g : generator) : M (list seg_dict) :=
  exhausted g ;;
  ret (map seg_to_dict (yields g)).

Definition invalid_video_id (vid : string) : bool :=
  negb (truthy vid) || negb (str_len vid =? 11).

Definition cleanup (tmpdir : string) : M unit :=
  modify (set_currently_processing None) ;;
  lock_release ;;
  rmtree tmpdir.

(** The body of the [try] of [transcribe]. *)
Definition transcribe_job (vid tmpdir : string) : M response :=
  audio_path <- download_audio vid tmpdir 600 ;;
  gi <- transcribe_audio audio_path ;;
  segments <- collect (fst gi) ;;
  modify incr_transcription_count ;;
  ret (TranscribeResponse segments (info_duration (snd gi))).

Definition transcribe (req : TranscribeRequest) : M response :=
  let vid := video_id req in
  if invalid_video_id vid then raise (HTTPException 400 InvalidVideoId)
  else
    acquired <- lock_acquire ;;
    if negb acquired then raise (HTTPException 503 GpuBusy)
    else
      modify (set_currently_processing (Some vid)) ;;
      tmpdir <- mkdtemp ;;
      try_finally (reraise_as_500 (transcribe_job vid tmpdir)) (cleanup tmpdir).

(** ** Progressive flushing *)

Definition flush_interval : Z := 20.

(** [min(95, int(last_time / estimated_duration * 100))] *)
Definition progress_pct (last_time estimated_duration : Q) : Z :=
  Z.min 95 (int (last_time / estimated_duration * 100)%Q).

(** The periodic flush: the [try] block of the loop body.  It returns the
    new value of [last_flush_count]. *)
Definition periodic_flush
    (req : ProgressiveRequest) (segments : list seg_dict) (pct last_flush_count : Z) : M Z :=
  try_except
    (supabase_upsert_segments (pr_video_id req) segments "whisperx" ;;
     supabase_heartbeat (job_id req) (worker_id req) None (Some pct) (Some (len segments)) ;;
     ret (len segments))
    (fun _ => ret last_flush_count).

(** The body of [for s in segs_gen], on the locals [segments] and
    [last_flush_count]. *)
Definition loop_body
    (req : ProgressiveRequest) (estimated_duration : Q)
    (s : Segment) (segments : list seg_dict) (last_flush_count : Z)
    : M (list seg_dict * Z) :=
  let segments := (segments ++ [seg_to_dict s])%list in
  if len segments - last_flush_count >=? flush_interval then
    let last_time :=
      match last_opt segments with
      | Some l => offset l
      | None => 0%Q
      end in
    let pct := progress_pct last_time estimated_duration in
    n <- periodic_flush req segments pct last_flush_count ;;
    ret (segments, n)
  else ret (segments, last_flush_count).

Fixpoint flush_loop
    (req : ProgressiveRequest) (estimated_duration : Q)
    (gen : list Segment) (segments : list seg_dict) (last_flush_count : Z)
    : M (list seg_dict * Z) :=
  match gen with
  | [] => ret (segments, last_flush_count)
  | s :: gen' =>
      st <- loop_body req estimated_duration s segments last_flush_count ;;
      flush_loop req estimated_duration gen' (fst st) (snd st)
  end.

(** The final flush: [if segments: try: upsert except: log]. *)
Definition final_flush (vid : string) (segments : list seg_dict) : M unit :=
  match segments with
  | [] => ret tt
  | _ :: _ =>
      try_except (supabase_upsert_segments vid segments "whisperx") (fun _ => ret tt)
  end.

(** The body of the [try] of [transcribe_progressive]. *)
Definition progressive_job (req : ProgressiveRequest) (tmpdir : string) : M response :=
  let vid := pr_video_id req in
  audio_path <- download_audio vid tmpdir 600 ;;
  supabase_heartbeat (job_id req) (worker_id req) (Some "transcribing") None None ;;
  gi <- transcribe_audio audio_path ;;
  let estimated_duration := float_or (info_duration (snd gi)) 600 in
  st <- flush_loop req estimated_duration (yields (fst gi)) [] 0 ;;
  exhausted (fst gi) ;;
  let segments := fst st in
  final_flush vid segments ;;
  modify incr_transcription_count ;;
  ret (ProgressiveResponse segments (info_duration (snd gi)) (len segments)).

Definition transcribe_progressive (req : ProgressiveRequest) : M response :=
  if negb configured then raise (HTTPException 500 SupabaseNotConfigured)
  else
    let vid := pr_video_id req in
    if invalid_video_id vid then raise (HTTPException 400 InvalidVideoId)
    else
      acquired <- lock_acquire ;;
      if negb acquired then raise (HTTPException 503 GpuBusy)
      else
        modify (set_currently_processing (Some vid)) ;;
        tmpdir <- mkdtemp ;;
        try_finally (reraise_as_500 (progressive_job req tmpdir)) (cleanup tmpdir).

End Service.

(** ** cleanup_orphan_temps *)

(** One entry of [/tmp]: its name, whether it is a real directory (the only
    kind [shutil.rmtree] removes; on anything else it fails, and the
    failure is ignored), and what [stat] gives for its modification time. *)
Record tmp_entry : Type := mkEntry {
  name : string;
  is_dir : bool;
  st_mtime : outcome Q
}.

(** [str(p)] for [p] under [pathlib.Path("/tmp")]. *)
Definition path_str (p : tmp_entry) : string := "/tmp/" ++ name p.

Definition startswith (s pre : string) : bool := prefix pre s.

(** [pathlib.Path("/tmp").glob("whisperx-*")] *)
Definition glob_whisperx (fs : list tmp_entry) : list tmp_entry :=
  filter (fun p => startswith (name p) "whisperx-") fs.

Definition Qlt_bool (x y : Q) : bool := negb (Qle_bool y x).

(** [shutil.rmtree(p, ignore_errors=True)] on the listing of [/tmp]. *)
Definition rmtree_entry (p : tmp_entry) (fs : list tmp_entry) : list tmp_entry :=
  if is_dir p then filter (fun e => negb (name e =? name p)%string) fs else fs.

(** The body of the loop: does it call [rmtree] on [p]? *)
Definition is_orphan (hf_home : string) (cutoff : Q) (p : tmp_entry) : bool :=
  if truthy hf_home && (path_str p =? hf_home)%string then false
  else if negb (startswith (name p) "whisperx-") || (str_len (name p) <? 15) then false
  else
    match st_mtime p with
    | Ok mtime => Qlt_bool mtime cutoff
    | Fails _ => false
    end.

Fixpoint sweep (hf_home : string) (cutoff : Q)
    (paths : list tmp_entry) (fs : list tmp_entry) : list tmp_entry :=
  match paths with
  | [] => fs
  | p :: paths' =>
      sweep hf_home cutoff paths'
            (if is_orphan hf_home cutoff p then rmtree_entry p fs else fs)
  end.

(** [now] is [time.time()]; the result is the listing of [/tmp] afterwards. *)
Definition cleanup_orphan_temps (cfg : config) (now : Q) (fs : list tmp_entry)
    : list tmp_entry :=
  let cutoff := (now - 3600)%Q in
  sweep (HF_HOME cfg) cutoff (glob_whisperx fs) fs.

(** ** embedding-service.py *)

Module Embedding.

Definition MODEL_NAME : string := "nomic-ai/nomic-embed-text-v1.5".
Definition EMBED_DIM : Z := 1024.

Record EmbedRequest : Type := mkEmbedRequest {
  texts : list string;
  input_type : string
}.

Record EmbedResponse : Type := mkEmbedResponse {
  embeddings : list (list Q);
  model : string;
  dimensions : Z
}.

Section Embed.

(** [get_model().encode(prefixed, ...)]: the vectors, or the message of
    the exception the model raised. *)
Variable encode : list string -> outcome (list (list Q)).

Definition embed (req : EmbedRequest) : result EmbedResponse :=
  match texts req with
  | [] => Raise (HTTPException 400 EmptyTexts)
  | _ :: _ =>
      if len (texts req) >? 256 then Raise (HTTPException 400 MaxTexts)
      else
        let pre :=
          if (input_type req =? "document")%string then "search_document: "
          else "search_query: " in
        let prefixed := map (fun t => pre ++ t) (texts req) in
        match encode prefixed with
        | Ok e => Return (mkEmbedResponse e MODEL_NAME EMBED_DIM)
        | Fails msg => Raise (Exception msg)
        end
  end.

End Embed.

End Embedding.

(** * Observations on a run *)

(** The segment lists sent to [/rest/v1/transcripts], in order. *)
Definition upserted (log : list (http_request * bool)) : list (list seg_dict) :=
  flat_map (fun c => match fst c with
                     | PostTranscripts body => [up_segments body]
                     | PostHeartbeat _ => []
                     end) log.


(** The segment counts at which the loop starts a periodic flush when every
    flush succeeds: [n] segments are held, [l] were flushed, [k] more come. *)
Fixpoint periodic_points (k n l : nat) : list nat :=
  match k with
  | O => []
  | S k' =>
      if (20 <=? S n - l)%nat then S n :: periodic_points k' (S n) (S n)
      else periodic_points k' (S n) l
  end.

(** The state in which the loop of [transcribe_progressive] starts: the
    lock is held, the scratch directory [d] exists and the "transcribing"
    heartbeat has been sent. *)
Definition loop_entry (cfg : config) (w : world) (req : ProgressiveRequest)
    (d : string) (s : state) : state :=
  snd (supabase_heartbeat cfg w (job_id req) (worker_id req) (Some "transcribing") None None
         (set_tmp (d :: tmp s)
            (set_currently_processing (Some (pr_video_id req)) (set_gpu_lock true s)))).

(** The state in which that loop ends, for the stream [g]. *)
Definition after_loop (cfg : config) (w : world) (req : ProgressiveRequest)
    (d : string) (g : generator) (info : TranscriptionInfo) (s : state) : state :=
  snd (flush_loop cfg w req (float_or (info_duration info) 600) (yields g) [] 0
         (loop_entry cfg w req d s)).

(** The request passes entry validation, finds the lock free, gets the
    scratch directory [d], downloads an audio file of an accepted size, and
    the model hands back the stream [g] with the summary [info]. *)
Definition accepted (cfg : config) (w : world) (req : ProgressiveRequest) (s : state)
    (d : string) (g : generator) (info : TranscriptionInfo) : Prop :=
  configured cfg = true /\
  invalid_video_id (pr_video_id req) = false /\
  _gpu_lock s = false /\
  mkdtemp_result w = Ok d /\
  (exists r path rest,
      run_result w = Ok r /\ returncode r = 0 /\ glob_result w = path :: rest /\
      1000 <= getsize w path <= _MAX_AUDIO_BYTES) /\
  transcribe_result w = Ok (g, info).

(** The heartbeat sent on entering the transcription stage. *)
Definition transcribing_heartbeat (req : ProgressiveRequest) : heartbeat_params :=
  mkHeartbeat (job_id req) (worker_id req) (Some "transcribing") None None.

(** ** Logs and frames *)

(** [s] with the requests [delta] appended to the log, nothing else changed. *)
Definition with_log (s : state) (delta : list (http_request * bool)) : state :=
  mkState (_gpu_lock s) (_currently_processing s) (_transcription_count s) (tmp s)
          (network s ++ delta)%list.

(** The body that [supabase_upsert_segments] posts. *)
Definition payload_of (vid : string) (segments : list seg_dict) (source : string)
    : upsert_payload :=
  mkUpsert vid segments source (len segments)
    (round (match last_opt segments with
            | Some last_seg => (offset last_seg + duration last_seg)%Q
            | None => (0 + 0)%Q
            end) 1).

(** The heartbeat of a periodic flush. *)
Definition progress_heartbeat (req : ProgressiveRequest) (pct n : Z) : heartbeat_params :=
  mkHeartbeat (job_id req) (worker_id req) None (Some pct) (Some n).

(** The requests of the loop, by what each iteration did: nothing, an
    upsert that failed, or an upsert followed by the progress heartbeat.
    [segs] are the segments held before the iteration. *)
Inductive loop_log (req : ProgressiveRequest) (est : Q)
  : list seg_dict -> list Segment -> list (http_request * bool) -> Prop :=
| loop_done : forall segs, loop_log req est segs [] []
| loop_skip : forall segs x gen delta,
    loop_log req est (segs ++ [seg_to_dict x]) gen delta ->
    loop_log req est segs (x :: gen) delta
| loop_failed : forall segs x gen delta,
    loop_log req est (segs ++ [seg_to_dict x]) gen delta ->
    loop_log req est segs (x :: gen)
      ((PostTranscripts (payload_of (pr_video_id req) (segs ++ [seg_to_dict x]) "whisperx"),
        false) :: delta)
| loop_flushed : forall segs x gen delta okh,
    loop_log req est (segs ++ [seg_to_dict x]) gen delta ->
    loop_log req est segs (x :: gen)
      ((PostTranscripts (payload_of (pr_video_id req) (segs ++ [seg_to_dict x]) "whisperx"),
        true)
       :: (PostHeartbeat
             (progress_heartbeat req (progress_pct (offset (seg_to_dict x)) est)
                (len (segs ++ [seg_to_dict x]))), okh)
       :: delta).

(** The final flush, as [transcribe_progressive] makes it after the log
    [before]: one upsert of all segments when there are any, and only when
    the stream ended without raising. *)
Definition final_requests (w : world) (req : ProgressiveRequest) (g : generator)
    (before : list (http_request * bool)) : list (http_request * bool) :=
  match raises g, map seg_to_dict (yields g) with
  | None, (_ :: _) as segs =>
      [(PostTranscripts (payload_of (pr_video_id req) segs "whisperx"),
        urlopen_ok w (PostTranscripts (payload_of (pr_video_id req) segs "whisperx"))
                   (List.length before))]
  | _, _ => []
  end.

(** A computation that leaves the lock and the scratch directories alone. *)
Definition keeps_resources {A : Type} (c : M A) : Prop :=
  forall s, _gpu_lock (snd (c s)) = _gpu_lock s /\ tmp (snd (c s)) = tmp s.

(** ** Sample inputs *)

Definition sample_config : config :=
  mkConfig (Some "https://project.supabase.co") (Some "service-role-key") "/tmp/whisperx-models".

Definition no_credentials : config := mkConfig None None "".

Definition idle : state := mkState false None 0 [] [].

Definition sample_world (size : Z) : world :=
  mkWorld (Ok "/tmp/whisperx-a1b2c3d4")
          (Ok (mkCompleted 0 "" ""))
          ["/tmp/whisperx-a1b2c3d4/audio.webm"]
          (fun _ => size)
          (Ok (mkGenerator [] None, mkInfo 0))
          (fun _ _ => true).

Definition sample_request : ProgressiveRequest :=
  mkProgressiveRequest "dQw4w9WgXcQ" "job-1" "worker-1".

Definition sample_segment (k : nat) : Segment :=
  mkSegment " so anyway " (inject_Z (3 * Z.of_nat k)) (inject_Z (3 * Z.of_nat k + 2)) None.

Definition sample_stream (n : nat) : generator :=
  mkGenerator (map sample_segment (seq 0 n)) None.

Definition sample_info (n : nat) : TranscriptionInfo :=
  mkInfo (inject_Z (3 * Z.of_nat n)).

(** A job of [n] segments; the store answers every request as [store] says. *)
Definition job_world (n : nat) (store : bool) : world :=
  mkWorld (Ok "/tmp/whisperx-a1b2c3d4")
          (Ok (mkCompleted 0 "" ""))
          ["/tmp/whisperx-a1b2c3d4/audio.webm"]
          (fun _ => 5000)
          (Ok (sample_stream n, sample_info n))
          (fun _ _ => store).

(** [/tmp] is full: [mkdtemp] raises. *)
Definition disk_full : world :=
  mkWorld (Fails "[Errno 28] No space left on device")
          (Ok (mkCompleted 0 "" ""))
          []
          (fun _ => 0)
          (Fails "unreachable")
          (fun _ _ => true).

Definition sample_tmp : list tmp_entry :=
  [ mkEntry "whisperx-a1b2c3d4" true (Ok 1000%Q);
    mkEntry "whisperx-fresh123" true (Ok 9000%Q);
    mkEntry "whisperx-models" true (Ok 0%Q);
    mkEntry "systemd-private" true (Ok 0%Q) ].

Ltac sample_accepted :=
  unfold accepted; repeat split;
  try reflexivity;
  try (eexists _, _, _; repeat split; try reflexivity; try (vm_compute; discriminate)).

(** ** Further definitions *)

(** The last character of a string. *)
Fixpoint last_char (s : string) : option ascii :=
  match s with
  | EmptyString => None
  | String c EmptyString => Some c
  | String _ s' => last_char s'
  end.

Definition first_char (s : string) : option ascii :=
  match s with
  | EmptyString => None
  | String c _ => Some c
  end.

(** Does the string begin or end with whitespace? *)
Definition padded (s : string) : bool :=
  match first_char s, last_char s with
  | Some a, Some b => isspace a || isspace b
  | _, _ => false
  end.

(** What the [finally] block of the handlers makes of a state. *)
Definition cleaned (d : string) (s : state) : state :=
  set_tmp (remove string_dec d (tmp s))
          (set_gpu_lock false (set_currently_processing None s)).

(** What the [except] clauses of the handlers make of an exception. *)
Definition as_500 (e : exn) : exn :=
  match e with
  | HTTPException _ _ => e
  | Exception msg => HTTPException 500 (Str msg)
  end.

(** The state in which the [try] of a handler starts, for the identifier
    [vid] and the scratch directory [d]. *)
Definition try_entry (vid d : string) (s : state) : state :=
  set_tmp (d :: tmp s) (set_currently_processing (Some vid) (set_gpu_lock true s)).

Definition succeeded {A : Type} (r : result A) : bool :=
  match r with
  | Return _ => true
  | Raise _ => false
  end.

(** The codes with which a handler can fail once it is inside its [try]. *)
Definition handler_error (e : exn) : Prop :=
  exists c dt, e = HTTPException c dt /\ (c = 502 \/ c = 413 \/ c = 500).

(** Is the entry [e] removed by a sweep over the glob matches [paths]? *)
Definition doomed (hf_home : string) (cutoff : Q) (paths : list tmp_entry) (e : tmp_entry)
    : bool :=
  existsb (fun p => is_orphan hf_home cutoff p && is_dir p && (name e =? name p)%string) paths.

(** ** get_model *)

(** [get_model] of whisperx-service.py, on the global [_model]; [load] is
    what [WhisperModel("large-v3", ...)] gives when it is called. *)
Module WhisperxModel.
Section GetModel.

Variable Model : Type.

Definition get_model (load : outcome Model) (_model : option Model)
    : result Model * option Model :=
  match _model with
  | Some m => (Return m, Some m)
  | None =>
      match load with
      | Ok m => (Return m, Some m)
      | Fails msg => (Raise (Exception msg), None)
      end
  end.

End GetModel.
End WhisperxModel.

(** [get_model] of embedding-service.py: the global is assigned the loaded
    model first, and then the model moved to the GPU. *)
Module EmbeddingModel.
Section GetModel.

Variable Model : Type.

Definition get_model (load : outcome Model) (to_cuda : Model -> outcome Model)
    (_model : option Model) : result Model * option Model :=
  match _model with
  | Some m => (Return m, Some m)
  | None =>
      match load with
      | Ok m =>
          match to_cuda m with
          | Ok m' => (Return m', Some m')
          | Fails msg => (Raise (Exception msg), Some m)
          end
      | Fails msg => (Raise (Exception msg), None)
      end
  end.

End GetModel.
End EmbeddingModel.

(** * Theorems *)

(** ** The embedding endpoint *)

(** C10: [embed] answers 400 if and only if the list of texts is empty or
    has more than 256 entries; with 1 to 256 texts it never does. *)
Theorem embed_rejects_400_iff :
  forall (encode : list string -> outcome (list (list Q))) (req : Embedding.EmbedRequest),
    (exists d, Embedding.embed encode req = Raise (HTTPException 400 d)) <->
    (Embedding.texts req = [] \/ 256 < len (Embedding.texts req)).
Proof.
  intros encode req. unfold Embedding.embed.
  destruct (Embedding.texts req) as [|t ts] eqn:Ht.
  - split; [intros _; now left | intros _; now exists EmptyTexts].
  - destruct (len (t :: ts) >? 256) eqn:Hlen.
    + split; [intros _; right; lia | intros _; now exists MaxTexts].
    + split.
      * intros [d Hd].
        destruct (encode _); discriminate.
      * intros [Hnil | Hbig]; [discriminate | lia].
Qed.

(** ** Audio acquisition *)

Lemma download_audio_state :
  forall w vid tmpdir timeout s, snd (download_audio w vid tmpdir timeout s) = s.
Proof.
  intros. unfold download_audio, bind, lift, raise, ret.
  destruct (run_result w) as [r|msg]; simpl; [|reflexivity].
  destruct (returncode r =? 0); simpl; [|reflexivity].
  destruct (glob_result w) as [|p ps]; [reflexivity|].
  destruct (getsize w p <? 1000); [reflexivity|].
  destruct (getsize w p >? _MAX_AUDIO_BYTES); reflexivity.
Qed.

Lemma download_audio_sized :
  forall w vid tmpdir timeout s r path rest,
    run_result w = Ok r -> returncode r = 0 -> glob_result w = path :: rest ->
    fst (download_audio w vid tmpdir timeout s) =
      if getsize w path <? 1000 then
        Raise (HTTPException 502 (AudioTooSmall (getsize w path)))
      else if getsize w path >? _MAX_AUDIO_BYTES then
        Raise (HTTPException 413 (AudioTooLarge (getsize w path) _MAX_AUDIO_BYTES))
      else Return path.
Proof.
  intros w vid tmpdir timeout s r path rest Hrun Hrc Hglob.
  unfold download_audio, bind, lift, raise, ret.
  rewrite Hrun. simpl. rewrite Hrc. simpl. rewrite Hglob.
  destruct (getsize w path <? 1000); [reflexivity|].
  destruct (getsize w path >? _MAX_AUDIO_BYTES); reflexivity.
Qed.

(** C8: a downloaded file of exactly 1000 bytes and one of exactly
    1,500,000,000 bytes are accepted; 999 bytes fail as too small and
    1,500,000,001 bytes as too large; and 413, the code of the too-large
    failure, is the code of no other failure of [download_audio]. *)
Theorem download_audio_size_boundary :
  forall w vid tmpdir timeout s,
    (forall r path rest,
        run_result w = Ok r -> returncode r = 0 -> glob_result w = path :: rest ->
        let out := fst (download_audio w vid tmpdir timeout s) in
        (getsize w path = 1000 -> out = Return path) /\
        (getsize w path = 1500000000 -> out = Return path) /\
        (getsize w path = 999 ->
         out = Raise (HTTPException 502 (AudioTooSmall 999))) /\
        (getsize w path = 1500000001 ->
         out = Raise (HTTPException 413 (AudioTooLarge 1500000001 1500000000)))) /\
    (forall e,
        fst (download_audio w vid tmpdir timeout s) = Raise e ->
        (status_of e = Some 413 <-> exists n, e = HTTPException 413 (AudioTooLarge n 1500000000))).
Proof.
  intros w vid tmpdir timeout s. split.
  - intros r path rest Hrun Hrc Hglob out. subst out.
    rewrite (download_audio_sized w vid tmpdir timeout s r path rest Hrun Hrc Hglob).
    repeat split; intros ->; reflexivity.
  - intros e. unfold download_audio, bind, lift, raise, ret.
    destruct (run_result w) as [r|msg]; simpl.
    + destruct (returncode r =? 0); simpl.
      * destruct (glob_result w) as [|p ps]; simpl.
        -- intros [= <-]; simpl. split; [discriminate | intros [n Hn]; discriminate].
        -- destruct (getsize w p <? 1000); simpl.
           ++ intros [= <-]; simpl. split; [discriminate | intros [n Hn]; discriminate].
           ++ destruct (getsize w p >? _MAX_AUDIO_BYTES); simpl.
              ** intros [= <-]; simpl. split; [intros _; now eexists | reflexivity].
              ** discriminate.
      * intros [= <-]; simpl. split; [discriminate | intros [n Hn]; discriminate].
    + intros [= <-]; simpl. split; [discriminate | intros [n Hn]; discriminate].
Qed.

Lemma download_audio_size_boundary_witness :
  fst (download_audio (sample_world 1000) "dQw4w9WgXcQ" "/tmp/whisperx-a1b2c3d4" 600 idle)
  = Return "/tmp/whisperx-a1b2c3d4/audio.webm".
Proof.
  apply (proj1 (proj1 (download_audio_size_boundary (sample_world 1000)
                 "dQw4w9WgXcQ" "/tmp/whisperx-a1b2c3d4" 600 idle)
               (mkCompleted 0 "" "") "/tmp/whisperx-a1b2c3d4/audio.webm" []
               eq_refl eq_refl eq_refl)).
  reflexivity.
Defined.

(** ** Entry validation *)

Lemma invalid_video_id_length :
  forall vid, str_len vid <> 11 -> invalid_video_id vid = true.
Proof.
  intros vid H. unfold invalid_video_id.
  destruct (str_len vid =? 11) eqn:E; [apply Z.eqb_eq in E; contradiction|].
  apply orb_true_r.
Qed.

(** C2: an identifier that is not exactly 11 characters long (the empty one
    included) is rejected by both endpoints with the whole process state,
    the lock with it, left as it was; and [transcribe_progressive] without
    store credentials rejects every request in the same way. *)
Theorem invalid_request_leaves_guard_untouched :
  forall cfg w s,
    (forall req, str_len (video_id req) <> 11 ->
       transcribe w req s = (Raise (HTTPException 400 InvalidVideoId), s)) /\
    (forall req, str_len (pr_video_id req) <> 11 ->
       transcribe_progressive cfg w req s =
         (Raise (if configured cfg then HTTPException 400 InvalidVideoId
                 else HTTPException 500 SupabaseNotConfigured), s)) /\
    (forall req, configured cfg = false ->
       transcribe_progressive cfg w req s =
         (Raise (HTTPException 500 SupabaseNotConfigured), s)).
Proof.
  intros cfg w s. repeat split.
  - intros req H. unfold transcribe.
    rewrite (invalid_video_id_length _ H). reflexivity.
  - intros req H. unfold transcribe_progressive.
    destruct (configured cfg); simpl; [|reflexivity].
    rewrite (invalid_video_id_length _ H). reflexivity.
  - intros req H. unfold transcribe_progressive. rewrite H. reflexivity.
Qed.

Lemma invalid_request_leaves_guard_untouched_witness :
  transcribe (sample_world 5000) (mkTranscribeRequest "short") idle
    = (Raise (HTTPException 400 InvalidVideoId), idle) /\
  transcribe_progressive sample_config (sample_world 5000)
      (mkProgressiveRequest "" "job-1" "worker-1") idle
    = (Raise (HTTPException 400 InvalidVideoId), idle) /\
  transcribe_progressive no_credentials (sample_world 5000)
      (mkProgressiveRequest "dQw4w9WgXcQ" "job-1" "worker-1") idle
    = (Raise (HTTPException 500 SupabaseNotConfigured), idle).
Proof.
  split; [|split].
  - apply (proj1 (invalid_request_leaves_guard_untouched
                    sample_config (sample_world 5000) idle)).
    vm_compute. discriminate.
  - apply (proj1 (proj2 (invalid_request_leaves_guard_untouched
                    sample_config (sample_world 5000) idle))
             (mkProgressiveRequest "" "job-1" "worker-1")).
    vm_compute. discriminate.
  - apply (proj2 (proj2 (invalid_request_leaves_guard_untouched
                    no_credentials (sample_world 5000) idle))).
    reflexivity.
Defined.

(** ** Running the progressive pipeline *)

Lemma with_log_nil : forall s, with_log s [] = s.
Proof. intros [l c n t log]. unfold with_log. simpl. now rewrite app_nil_r. Qed.

Lemma with_log_app :
  forall s a b, with_log (with_log s a) b = with_log s (a ++ b).
Proof. intros. unfold with_log. simpl. now rewrite app_assoc. Qed.

Lemma network_with_log : forall s a, network (with_log s a) = (network s ++ a)%list.
Proof. reflexivity. Qed.

Section Configured.

Variable cfg : config.
Variable w : world.
Hypothesis Hconf : configured cfg = true.

Lemma supabase_upsert_segments_run :
  forall vid segs source s,
    supabase_upsert_segments cfg w vid segs source s =
      let up := PostTranscripts (payload_of vid segs source) in
      let ok := urlopen_ok w up (List.length (network s)) in
      (if ok then Return tt else Raise (Exception "urlopen error"),
       with_log s [(up, ok)]).
Proof.
  intros. unfold supabase_upsert_segments. rewrite Hconf. reflexivity.
Qed.

Lemma supabase_heartbeat_run :
  forall job worker status pct n s,
    supabase_heartbeat cfg w job worker status pct n s =
      let hb := PostHeartbeat
                  (mkHeartbeat job worker (if truthy_opt status then status else None) pct n) in
      (Return tt, with_log s [(hb, urlopen_ok w hb (List.length (network s)))]).
Proof.
  intros. unfold supabase_heartbeat. rewrite Hconf. simpl.
  unfold try_except, urlopen.
  destruct (urlopen_ok w _ _); reflexivity.
Qed.

Lemma periodic_flush_run :
  forall req segs pct lfc s,
    periodic_flush cfg w req segs pct lfc s =
      let up := PostTranscripts (payload_of (pr_video_id req) segs "whisperx") in
      let hb := PostHeartbeat (progress_heartbeat req pct (len segs)) in
      if urlopen_ok w up (List.length (network s)) then
        (Return (len segs),
         with_log s [(up, true);
                     (hb, urlopen_ok w hb (List.length (network s ++ [(up, true)])))])
      else (Return lfc, with_log s [(up, false)]).
Proof.
  intros. unfold periodic_flush, try_except, bind.
  rewrite supabase_upsert_segments_run. simpl.
  destruct (urlopen_ok w _ (List.length (network s))) eqn:Hok; [|reflexivity].
  rewrite supabase_heartbeat_run. simpl. rewrite with_log_app. reflexivity.
Qed.

Lemma last_opt_snoc :
  forall (A : Type) (l : list A) (x : A), last_opt (l ++ [x]) = Some x.
Proof.
  intros A l x. destruct l as [|a l]; [reflexivity|]. simpl. f_equal.
  apply last_last.
Qed.

Lemma loop_body_run :
  forall req est x segs lfc s,
    loop_body cfg w req est x segs lfc s =
      let segs' := (segs ++ [seg_to_dict x])%list in
      if len segs' - lfc >=? flush_interval then
        let pct := progress_pct (offset (seg_to_dict x)) est in
        let up := PostTranscripts (payload_of (pr_video_id req) segs' "whisperx") in
        let hb := PostHeartbeat (progress_heartbeat req pct (len segs')) in
        if urlopen_ok w up (List.length (network s)) then
          (Return (segs', len segs'),
           with_log s [(up, true);
                       (hb, urlopen_ok w hb (List.length (network s ++ [(up, true)])))])
        else (Return (segs', lfc), with_log s [(up, false)])
      else (Return (segs', lfc), s).
Proof.
  intros. unfold loop_body. simpl.
  destruct (len (segs ++ [seg_to_dict x]) - lfc >=? flush_interval); [|reflexivity].
  rewrite last_opt_snoc. unfold bind.
  rewrite periodic_flush_run. cbv zeta.
  destruct (urlopen_ok w _ _); reflexivity.
Qed.

End Configured.

Lemma upserted_app :
  forall a b, upserted (a ++ b) = (upserted a ++ upserted b)%list.
Proof. intros. unfold upserted. apply flat_map_app. Qed.


Lemma len_snoc : forall (A : Type) (l : list A) (x : A), len (l ++ [x]) = len l + 1.
Proof. intros. unfold len. rewrite length_app. simpl. lia. Qed.

Lemma threshold_nat :
  forall (n l : nat),
    (Z.of_nat n + 1 - Z.of_nat l >=? flush_interval) = (20 <=? S n - l)%nat.
Proof.
  intros n l. unfold flush_interval.
  destruct (Nat.leb_spec 20 (S n - l)); destruct (Z.geb_spec (Z.of_nat n + 1 - Z.of_nat l) 20);
    try reflexivity; lia.
Qed.

Lemma periodic_points_S :
  forall k n l,
    periodic_points (S k) n l =
      if (20 <=? S n - l)%nat then S n :: periodic_points k (S n) (S n)
      else periodic_points k (S n) l.
Proof. reflexivity. Qed.

Section Loop.

Variable cfg : config.
Variable w : world.
Hypothesis Hconf : configured cfg = true.
Variable req : ProgressiveRequest.
Variable est : Q.

(** The loop never raises, keeps every segment, and only adds to the log. *)
Lemma flush_loop_run :
  forall gen segs lfc s,
    exists lfc' delta,
      flush_loop cfg w req est gen segs lfc s =
        (Return ((segs ++ map seg_to_dict gen)%list, lfc'), with_log s delta).
Proof.
  induction gen as [|x gen IH]; intros segs lfc s.
  - exists lfc, []. simpl. unfold ret. now rewrite app_nil_r, with_log_nil.
  - simpl. unfold bind. rewrite (loop_body_run cfg w Hconf). cbv zeta.
    destruct (len (segs ++ [seg_to_dict x]) - lfc >=? flush_interval).
    + destruct (urlopen_ok w _ (List.length (network s))); cbn [fst snd].
      * match goal with
        | |- context [flush_loop _ _ _ _ _ ?sg ?l ?st] =>
            destruct (IH sg l st) as (lfc' & delta & E)
        end.
        rewrite E, with_log_app, <- app_assoc. simpl. eauto.
      * match goal with
        | |- context [flush_loop _ _ _ _ _ ?sg ?l ?st] =>
            destruct (IH sg l st) as (lfc' & delta & E)
        end.
        rewrite E, with_log_app, <- app_assoc. simpl. eauto.
    + cbn [fst snd]. destruct (IH (segs ++ [seg_to_dict x])%list lfc s) as (lfc' & delta & E).
      rewrite E, <- app_assoc. simpl. eauto.
Qed.

(** When the store accepts every upsert, the loop flushes at the counts
    given by [periodic_points], each time with all segments held so far. *)
Lemma flush_loop_all_ok :
  (forall body n, urlopen_ok w (PostTranscripts body) n = true) ->
  forall gen segs l s,
    exists lfc' delta,
      flush_loop cfg w req est gen segs (Z.of_nat l) s =
        (Return ((segs ++ map seg_to_dict gen)%list, lfc'), with_log s delta) /\
      upserted delta =
        map (fun k => firstn k (segs ++ map seg_to_dict gen)%list)
            (periodic_points (List.length gen) (List.length segs) l).
Proof.
  intros Hok. induction gen as [|x gen IH]; intros segs l s.
  - exists (Z.of_nat l), []. simpl. unfold ret. now rewrite app_nil_r, with_log_nil.
  - cbn [flush_loop List.length map]. rewrite periodic_points_S.
    unfold bind. rewrite (loop_body_run cfg w Hconf). cbv zeta.
    rewrite len_snoc. unfold len at 1. rewrite threshold_nat.
    assert (Hall : (segs ++ seg_to_dict x :: map seg_to_dict gen)%list
                   = ((segs ++ [seg_to_dict x]) ++ map seg_to_dict gen)%list)
      by (now rewrite <- app_assoc).
    assert (Hn : List.length (segs ++ [seg_to_dict x])%list = S (List.length segs))
      by (rewrite length_app; simpl; lia).
    destruct (20 <=? S (List.length segs) - l)%nat.
    + rewrite Hok. cbn [fst snd].
      assert (Hlen : len segs + 1 = Z.of_nat (S (List.length segs))) by (unfold len; lia).
      rewrite Hlen.
      match goal with
      | |- context [flush_loop _ _ _ _ _ ?sg _ ?st] =>
          destruct (IH sg (S (List.length segs)) st) as (lfc' & delta & E & Hup)
      end.
      rewrite E, with_log_app, Hall.
      eexists _, _. split; [reflexivity|].
      rewrite upserted_app. cbn [upserted flat_map fst up_segments payload_of app map].
      f_equal.
      * rewrite <- Hn, <- (Nat.add_0_r (List.length (segs ++ [seg_to_dict x])%list)).
        rewrite firstn_app_2. simpl. now rewrite app_nil_r.
      * fold (upserted delta). rewrite Hup, Hn. reflexivity.
    + cbn [fst snd].
      destruct (IH (segs ++ [seg_to_dict x])%list l s) as (lfc' & delta & E & Hup).
      rewrite E, Hall. eexists _, _. split; [reflexivity|].
      rewrite Hup, Hn. reflexivity.
Qed.

End Loop.

Lemma final_flush_run :
  forall cfg w vid segs s,
    configured cfg = true ->
    final_flush cfg w vid segs s =
      (Return tt,
       with_log s
         match segs with
         | [] => []
         | _ :: _ =>
             [(PostTranscripts (payload_of vid segs "whisperx"),
               urlopen_ok w (PostTranscripts (payload_of vid segs "whisperx"))
                          (List.length (network s)))]
         end).
Proof.
  intros cfg w vid segs s Hconf. unfold final_flush.
  destruct segs as [|a segs]; [unfold ret; now rewrite with_log_nil|].
  unfold try_except. rewrite (supabase_upsert_segments_run cfg w Hconf). cbv zeta.
  destruct (urlopen_ok w _ _); reflexivity.
Qed.

(** A request that gets as far as the transcription loop. *)
Section ProgressiveRun.

Variable cfg : config.
Variable w : world.
Variable req : ProgressiveRequest.
Variable s : state.
Variable d : string.
Variable r : CompletedProcess.
Variable path : string.
Variable rest : list string.
Variable g : generator.
Variable info : TranscriptionInfo.

Hypothesis Hconf : configured cfg = true.
Hypothesis Hvid : invalid_video_id (pr_video_id req) = false.
Hypothesis Hfree : _gpu_lock s = false.
Hypothesis Hmk : mkdtemp_result w = Ok d.
Hypothesis Hrun : run_result w = Ok r.
Hypothesis Hrc : returncode r = 0.
Hypothesis Hglob : glob_result w = path :: rest.
Hypothesis Hsize : 1000 <= getsize w path <= _MAX_AUDIO_BYTES.
Hypothesis Htr : transcribe_result w = Ok (g, info).

Lemma download_audio_ok :
  forall vid tmpdir timeout s0,
    download_audio w vid tmpdir timeout s0 = (Return path, s0).
Proof.
  intros. rewrite (surjective_pairing (download_audio w vid tmpdir timeout s0)).
  rewrite download_audio_state.
  rewrite (download_audio_sized w vid tmpdir timeout s0 r path rest Hrun Hrc Hglob).
  destruct (Z.ltb_spec (getsize w path) 1000); [lia|].
  destruct (getsize w path >? _MAX_AUDIO_BYTES) eqn:E; [|reflexivity].
  apply Z.gtb_lt in E. lia.
Qed.

(** The whole run: the stream ends or raises. *)
Lemma transcribe_progressive_run :
  transcribe_progressive cfg w req s =
    let segs := map seg_to_dict (yields g) in
    match raises g with
    | None =>
        (Return (ProgressiveResponse segs (info_duration info) (len segs)),
         mkState false None (_transcription_count s + 1)
                 (remove string_dec d (d :: tmp s))
                 (network (snd (final_flush cfg w (pr_video_id req) segs
                                  (after_loop cfg w req d g info s)))))
    | Some msg =>
        (Raise (HTTPException 500 (Str msg)),
         mkState false None (_transcription_count s)
                 (remove string_dec d (d :: tmp s))
                 (network (after_loop cfg w req d g info s)))
    end.
Proof.
  assert (Hentry :
            supabase_heartbeat cfg w (job_id req) (worker_id req) (Some "transcribing")
              None None
              (set_tmp (d :: tmp s)
                 (set_currently_processing (Some (pr_video_id req)) (set_gpu_lock true s)))
            = (Return tt, loop_entry cfg w req d s)).
  { unfold loop_entry. now rewrite (supabase_heartbeat_run cfg w Hconf). }
  assert (Hfields :
            _gpu_lock (loop_entry cfg w req d s) = true /\
            _transcription_count (loop_entry cfg w req d s) = _transcription_count s /\
            tmp (loop_entry cfg w req d s) = d :: tmp s).
  { unfold loop_entry. now rewrite (supabase_heartbeat_run cfg w Hconf). }
  destruct Hfields as (Hl & Hc & Ht).
  destruct (flush_loop_run cfg w Hconf req (float_or (info_duration info) 600)
              (yields g) [] 0 (loop_entry cfg w req d s)) as (lfc' & delta & E).
  unfold after_loop. rewrite E. cbn [snd].
  rewrite (final_flush_run cfg w _ _ _ Hconf). cbn [snd].
  unfold transcribe_progressive.
  rewrite Hconf, Hvid. cbn [negb]. unfold bind at 1, lock_acquire.
  rewrite Hfree. cbn [negb]. unfold bind at 1, modify. unfold bind at 1, mkdtemp.
  rewrite Hmk. unfold try_finally, reraise_as_500, try_except, progressive_job.
  unfold bind at 1. rewrite download_audio_ok.
  change (tmp (set_currently_processing (Some (pr_video_id req)) (set_gpu_lock true s)))
    with (tmp s).
  unfold bind at 1. rewrite Hentry.
  unfold bind at 1, transcribe_audio, lift. rewrite Htr. cbn [result_of fst snd].
  unfold bind at 1. rewrite E. cbn [fst snd app].
  unfold bind at 1, exhausted.
  destruct (raises g) as [msg|].
  - unfold raise, cleanup, lock_release, rmtree, bind, modify.
    cbn [_gpu_lock set_currently_processing with_log].
    rewrite Hl.
    remember (loop_entry cfg w req d s) as s0 eqn:Hs0. clear Hs0.
    cbv beta iota. f_equal.
    unfold set_tmp, set_gpu_lock, set_currently_processing, with_log.
    cbn [_gpu_lock _currently_processing _transcription_count tmp network].
    rewrite Hc, Ht. reflexivity.
  - unfold ret at 1.
    unfold bind at 1. rewrite (final_flush_run cfg w _ _ _ Hconf).
    unfold bind, modify, ret, cleanup, lock_release, rmtree, bind, modify.
    cbn [_gpu_lock incr_transcription_count set_currently_processing with_log
         set_gpu_lock set_tmp _currently_processing _transcription_count tmp network].
    rewrite Hl.
    remember (loop_entry cfg w req d s) as s0 eqn:Hs0. clear Hs0.
    cbv beta iota. f_equal.
    unfold set_tmp, set_gpu_lock, set_currently_processing, incr_transcription_count, with_log.
    cbn [_gpu_lock _currently_processing _transcription_count tmp network].
    rewrite Hc, Ht. reflexivity.
Qed.

End ProgressiveRun.

(** ** What the loop sends *)

Lemma flush_loop_log :
  forall cfg w req est,
    configured cfg = true ->
    forall gen segs lfc s,
    exists lfc' delta,
      flush_loop cfg w req est gen segs lfc s =
        (Return ((segs ++ map seg_to_dict gen)%list, lfc'), with_log s delta) /\
      loop_log req est segs gen delta.
Proof.
  intros cfg w req est Hconf.
  induction gen as [|x gen IH]; intros segs lfc s.
  - exists lfc, []. split; [|constructor].
    simpl. unfold ret. now rewrite app_nil_r, with_log_nil.
  - cbn [flush_loop map]. unfold bind. rewrite (loop_body_run cfg w Hconf). cbv zeta.
    assert (Hall : (segs ++ seg_to_dict x :: map seg_to_dict gen)%list
                   = ((segs ++ [seg_to_dict x]) ++ map seg_to_dict gen)%list)
      by (now rewrite <- app_assoc).
    rewrite Hall.
    destruct (len (segs ++ [seg_to_dict x]) - lfc >=? flush_interval).
    + destruct (urlopen_ok w _ (List.length (network s))); cbn [fst snd].
      * match goal with
        | |- context [flush_loop _ _ _ _ _ ?sg ?l ?st] =>
            destruct (IH sg l st) as (lfc' & delta & E & Hlog)
        end.
        rewrite E, with_log_app. eexists _, _. split; [reflexivity|].
        apply loop_flushed. exact Hlog.
      * match goal with
        | |- context [flush_loop _ _ _ _ _ ?sg ?l ?st] =>
            destruct (IH sg l st) as (lfc' & delta & E & Hlog)
        end.
        rewrite E, with_log_app. eexists _, _. split; [reflexivity|].
        apply loop_failed. exact Hlog.
    + cbn [fst snd].
      destruct (IH (segs ++ [seg_to_dict x])%list lfc s) as (lfc' & delta & E & Hlog).
      rewrite E. eexists _, _. split; [reflexivity|].
      apply loop_skip. exact Hlog.
Qed.

(** ** Arithmetic of the progress estimate *)









(** ** The log of one job *)

Lemma loop_entry_log :
  forall cfg w req d s,
    configured cfg = true ->
    loop_entry cfg w req d s =
      with_log (set_tmp (d :: tmp s)
                  (set_currently_processing (Some (pr_video_id req)) (set_gpu_lock true s)))
               [(PostHeartbeat (transcribing_heartbeat req),
                 urlopen_ok w (PostHeartbeat (transcribing_heartbeat req))
                            (List.length (network s)))].
Proof.
  intros cfg w req d s Hconf. unfold loop_entry.
  now rewrite (supabase_heartbeat_run cfg w Hconf).
Qed.

(** The requests of an accepted job: the "transcribing" heartbeat, what the
    loop sends, and the final flush. *)
Lemma job_log :
  forall cfg w req s d g info,
    accepted cfg w req s d g info ->
    exists okt delta,
      loop_log req (float_or (info_duration info) 600) [] (yields g) delta /\
      network (after_loop cfg w req d g info s) =
        (network s ++ (PostHeartbeat (transcribing_heartbeat req), okt) :: delta)%list /\
      transcribe_progressive cfg w req s =
        (match raises g with
         | None =>
             Return (ProgressiveResponse (map seg_to_dict (yields g)) (info_duration info)
                       (len (map seg_to_dict (yields g))))
         | Some msg => Raise (HTTPException 500 (Str msg))
         end,
         mkState false None
           (match raises g with
            | None => _transcription_count s + 1
            | Some _ => _transcription_count s
            end)
           (remove string_dec d (d :: tmp s))
           (network (after_loop cfg w req d g info s) ++
            final_requests w req g (network (after_loop cfg w req d g info s)))).
Proof.
  intros cfg w req s d g info
         (Hconf & Hvid & Hfree & Hmk & (r & path & rest & Hrun & Hrc & Hglob & Hsize) & Htr).
  destruct (flush_loop_log cfg w req (float_or (info_duration info) 600) Hconf
              (yields g) [] 0 (loop_entry cfg w req d s)) as (lfc' & delta & E & Hlog).
  eexists _, delta. split; [exact Hlog|]. split.
  - unfold after_loop. rewrite E. cbn [snd].
    rewrite (loop_entry_log cfg w req d s Hconf), with_log_app. reflexivity.
  - rewrite (transcribe_progressive_run cfg w req s d r path rest g info
               Hconf Hvid Hfree Hmk Hrun Hrc Hglob Hsize Htr).
    cbv zeta. unfold final_requests. destruct (raises g) as [msg|].
    + now rewrite app_nil_r.
    + rewrite (final_flush_run cfg w _ _ _ Hconf). cbn [snd network with_log].
      destruct (map seg_to_dict (yields g)); reflexivity.
Qed.



(** ** The flush threshold *)

(** C3, as the code has it: the loop body attempts a periodic checkpoint,
    an upsert of all segments held, exactly when after the append the number
    of segments minus the last flushed count is at least 20.  Hence, when
    the store accepts every upsert, a stream of 39 segments gives one
    periodic checkpoint (the first 20 segments) and the final one with all
    39; a stream of 40 gives periodic checkpoints at 20 and at 40, and the
    final checkpoint that sends all 40 once more. *)
Theorem flush_threshold :
  (forall cfg w req est x segs lfc s,
      configured cfg = true ->
      let segs' := (segs ++ [seg_to_dict x])%list in
      let after := snd (loop_body cfg w req est x segs lfc s) in
      (flush_interval <= len segs' - lfc ->
       exists ok rest,
         network after =
           (network s ++
            (PostTranscripts (payload_of (pr_video_id req) segs' "whisperx"), ok) :: rest)%list) /\
      (len segs' - lfc < flush_interval -> after = s)) /\
  (forall cfg w req s d g info,
      accepted cfg w req s d g info ->
      raises g = None ->
      (forall body n, urlopen_ok w (PostTranscripts body) n = true) ->
      let segs := map seg_to_dict (yields g) in
      let periodic := upserted (network (after_loop cfg w req d g info s)) in
      let all := upserted (network (snd (transcribe_progressive cfg w req s))) in
      (List.length (yields g) = 39%nat ->
       periodic = (upserted (network s) ++ [firstn 20 segs])%list /\
       all = (upserted (network s) ++ [firstn 20 segs; segs])%list) /\
      (List.length (yields g) = 40%nat ->
       periodic = (upserted (network s) ++ [firstn 20 segs; segs])%list /\
       all = (upserted (network s) ++ [firstn 20 segs; segs; segs])%list)).
Proof.
  split.
  - intros cfg w req est x segs lfc s Hconf segs' after. subst segs' after.
    rewrite (loop_body_run cfg w Hconf). cbv zeta. split.
    + intros H. destruct (Z.geb_spec (len (segs ++ [seg_to_dict x]) - lfc) flush_interval); [|lia].
      destruct (urlopen_ok w _ (List.length (network s))); cbn [snd network with_log];
        eexists _, _; reflexivity.
    + intros H. destruct (Z.geb_spec (len (segs ++ [seg_to_dict x]) - lfc) flush_interval); [lia|].
      reflexivity.
  - intros cfg w req s d g info Hacc Hraises Hok segs periodic all.
    destruct (job_log cfg w req s d g info Hacc) as (okt & delta & _ & _ & Hrun).
    destruct Hacc as (Hconf & _).
    destruct (flush_loop_all_ok cfg w Hconf req (float_or (info_duration info) 600) Hok
                (yields g) [] 0%nat (loop_entry cfg w req d s))
      as (lfc' & delta' & E & Hup).
    assert (Hper : periodic =
                   (upserted (network s) ++
                    map (fun k => firstn k segs)
                        (periodic_points (List.length (yields g)) 0 0))%list).
    { subst periodic. unfold after_loop. change (Z.of_nat 0) with 0 in E. rewrite E.
      cbn [snd]. rewrite (loop_entry_log cfg w req d s Hconf), with_log_app.
      rewrite network_with_log, upserted_app. cbn [set_tmp network].
      rewrite upserted_app, Hup. reflexivity. }
    assert (Hall : forall a l, segs = a :: l -> all = (periodic ++ [segs])%list).
    { intros a l Hsegs. subst all periodic. rewrite Hrun. cbn [snd network].
      rewrite upserted_app. f_equal. unfold final_requests. rewrite Hraises.
      fold segs. rewrite Hsegs. reflexivity. }
    split; intros Hlen.
    + assert (Hsegs : exists a l, segs = a :: l).
      { subst segs. destruct (yields g); [discriminate|]. cbn [map]. eauto. }
      destruct Hsegs as (a & l & Hsegs). rewrite (Hall a l Hsegs), Hper, Hlen.
      split; [reflexivity|]. now rewrite <- app_assoc.
    + assert (Hsegs : exists a l, segs = a :: l).
      { subst segs. destruct (yields g); [discriminate|]. cbn [map]. eauto. }
      destruct Hsegs as (a & l & Hsegs). rewrite (Hall a l Hsegs), Hper, Hlen.
      assert (H40 : firstn 40 segs = segs).
      { apply firstn_all2. subst segs. rewrite length_map. lia. }
      cbn [periodic_points map Nat.leb Nat.sub]. rewrite H40.
      split; [reflexivity|]. now rewrite <- app_assoc.
Qed.

Lemma flush_threshold_witness :
  let segs := map seg_to_dict (yields (sample_stream 39)) in
  upserted (network (snd (transcribe_progressive sample_config (job_world 39 true)
                            sample_request idle)))
  = [firstn 20 segs; segs].
Proof.
  assert (Hacc : accepted sample_config (job_world 39 true) sample_request idle
                   "/tmp/whisperx-a1b2c3d4" (sample_stream 39) (sample_info 39))
    by sample_accepted.
  destruct (proj2 flush_threshold sample_config (job_world 39 true) sample_request idle
              "/tmp/whisperx-a1b2c3d4" (sample_stream 39) (sample_info 39)
              Hacc eq_refl (fun _ _ => eq_refl)) as [H39 _].
  destruct (H39 eq_refl) as [_ Hall]. exact Hall.
Defined.

(** C3 as stated fails twice.  With 40 segments and a store that accepts
    everything the loop flushes at 20 and again at 40, before the final
    flush: three upserts, of 20, 40 and 40 segments.  With 39 segments and a
    store that rejects everything the flush of segment 20 is attempted again
    at every later segment: twenty periodic attempts, not one. *)
Lemma flush_threshold_counterexample :
  map (@List.length seg_dict)
      (upserted (network (after_loop sample_config (job_world 40 true) sample_request
                            "/tmp/whisperx-a1b2c3d4" (sample_stream 40) (sample_info 40) idle)))
  = [20; 40]%nat /\
  map (@List.length seg_dict)
      (upserted (network (snd (transcribe_progressive sample_config (job_world 40 true)
                                 sample_request idle))))
  = [20; 40; 40]%nat /\
  map (@List.length seg_dict)
      (upserted (network (after_loop sample_config (job_world 39 false) sample_request
                            "/tmp/whisperx-a1b2c3d4" (sample_stream 39) (sample_info 39) idle)))
  = seq 20 20.
Proof. repeat split; vm_compute; reflexivity. Qed.

(** ** The final checkpoint *)

(** C4, as the code has it: when the stream of an accepted job is exhausted
    without raising and has yielded at least one segment, exactly one more
    upsert, of all segments, is attempted after the loop, whatever the last
    flushed count; when the stream yielded no segment, none is. *)
Theorem final_checkpoint_when_segments :
  forall cfg w req s d g info,
    accepted cfg w req s d g info ->
    raises g = None ->
    let segs := map seg_to_dict (yields g) in
    let before := network (after_loop cfg w req d g info s) in
    let up := PostTranscripts (payload_of (pr_video_id req) segs "whisperx") in
    network (snd (transcribe_progressive cfg w req s)) =
      (before ++
       match segs with
       | [] => []
       | _ :: _ => [(up, urlopen_ok w up (List.length before))]
       end)%list.
Proof.
  intros cfg w req s d g info Hacc Hraises segs before up.
  destruct (job_log cfg w req s d g info Hacc) as (okt & delta & _ & _ & Hrun).
  rewrite Hrun. cbn [snd network]. unfold final_requests. rewrite Hraises.
  fold segs. destruct segs; reflexivity.
Qed.

Lemma final_checkpoint_when_segments_witness :
  exists before ok,
    network (snd (transcribe_progressive sample_config (job_world 3 true)
                    sample_request idle))
    = (before ++
       [(PostTranscripts
           (payload_of "dQw4w9WgXcQ" (map seg_to_dict (yields (sample_stream 3))) "whisperx"),
         ok)])%list.
Proof.
  assert (Hacc : accepted sample_config (job_world 3 true) sample_request idle
                   "/tmp/whisperx-a1b2c3d4" (sample_stream 3) (sample_info 3))
    by sample_accepted.
  eexists _, _.
  exact (final_checkpoint_when_segments sample_config (job_world 3 true) sample_request idle
           "/tmp/whisperx-a1b2c3d4" (sample_stream 3) (sample_info 3) Hacc eq_refl).
Defined.

(** C4 as stated fails on a stream that yields nothing: the job succeeds,
    and the only request it made is the "transcribing" heartbeat. *)
Lemma no_final_checkpoint_for_empty_stream :
  let out := transcribe_progressive sample_config (job_world 0 true) sample_request idle in
  fst out = Return (ProgressiveResponse [] 0 0) /\
  network (snd out) = [(PostHeartbeat (transcribing_heartbeat sample_request), true)] /\
  ~ exists body ok, In (PostTranscripts body, ok) (network (snd out)).
Proof.
  cbv zeta. repeat split.
  intros (body & ok & Hin). vm_compute in Hin.
  destruct Hin as [Hin | []]. discriminate.
Qed.

(** ** Failed checkpoints *)

(** C5: whatever the store answers to the upserts, an accepted job whose
    stream ends returns the success response with all segments, counts as
    a completed transcription and releases the lock; a periodic flush whose
    upsert fails leaves the last flushed count as it was, and the loop body
    then flushes again, with the full list, on the very next segment. *)
Theorem checkpoint_failure_is_not_fatal :
  (forall cfg w req s d g info,
      accepted cfg w req s d g info ->
      raises g = None ->
      let segs := map seg_to_dict (yields g) in
      exists log,
        transcribe_progressive cfg w req s =
          (Return (ProgressiveResponse segs (info_duration info) (len segs)),
           mkState false None (_transcription_count s + 1)
                   (remove string_dec d (d :: tmp s)) log)) /\
  (forall cfg w req est x segs lfc s,
      configured cfg = true ->
      let segs' := (segs ++ [seg_to_dict x])%list in
      let up := PostTranscripts (payload_of (pr_video_id req) segs' "whisperx") in
      flush_interval <= len segs' - lfc ->
      urlopen_ok w up (List.length (network s)) = false ->
      loop_body cfg w req est x segs lfc s =
        (Return (segs', lfc), with_log s [(up, false)]) /\
      forall x2,
        exists ok rest,
          network (snd (loop_body cfg w req est x2 segs' lfc (with_log s [(up, false)]))) =
            (network s ++
             (up, false)
             :: (PostTranscripts
                   (payload_of (pr_video_id req) (segs' ++ [seg_to_dict x2]) "whisperx"), ok)
             :: rest)%list).
Proof.
  split.
  - intros cfg w req s d g info Hacc Hraises segs.
    destruct (job_log cfg w req s d g info Hacc) as (okt & delta & _ & _ & Hrun).
    rewrite Hrun, Hraises. eexists. reflexivity.
  - intros cfg w req est x segs lfc s Hconf segs' up Hthr Hfail. split.
    + rewrite (loop_body_run cfg w Hconf). cbv zeta. fold segs'. fold up.
      destruct (Z.geb_spec (len segs' - lfc) flush_interval); [|lia].
      rewrite Hfail. reflexivity.
    + intros x2. rewrite (loop_body_run cfg w Hconf). cbv zeta.
      assert (Hthr2 : flush_interval <= len (segs' ++ [seg_to_dict x2]) - lfc)
        by (rewrite len_snoc; lia).
      destruct (Z.geb_spec (len (segs' ++ [seg_to_dict x2]) - lfc) flush_interval); [|lia].
      destruct (urlopen_ok w _ (List.length (network (with_log s [(up, false)]))));
        cbn [snd network with_log]; rewrite <- app_assoc; eexists _, _; reflexivity.
Qed.

Lemma checkpoint_failure_is_not_fatal_witness :
  fst (transcribe_progressive sample_config (job_world 25 false) sample_request idle)
  = Return (ProgressiveResponse (map seg_to_dict (yields (sample_stream 25)))
              (info_duration (sample_info 25)) 25).
Proof.
  assert (Hacc : accepted sample_config (job_world 25 false) sample_request idle
                   "/tmp/whisperx-a1b2c3d4" (sample_stream 25) (sample_info 25))
    by sample_accepted.
  destruct (proj1 checkpoint_failure_is_not_fatal sample_config (job_world 25 false)
              sample_request idle "/tmp/whisperx-a1b2c3d4" (sample_stream 25) (sample_info 25)
              Hacc eq_refl) as [log Hrun].
  rewrite Hrun. reflexivity.
Defined.

(** ** The progress estimate *)





(** ** The janitor *)

Lemma Qlt_bool_iff : forall x y : Q, Qlt_bool x y = true <-> (x < y)%Q.
Proof.
  intros x y. unfold Qlt_bool. rewrite negb_true_iff. split.
  - intros H. apply Qnot_le_lt. intros Hle. apply Qle_bool_iff in Hle. congruence.
  - intros H. destruct (Qle_bool y x) eqn:E; [|reflexivity].
    apply Qle_bool_iff in E. exfalso. now apply (Qlt_not_le x y).
Qed.

Lemma is_orphan_iff :
  forall hf cutoff p,
    is_orphan hf cutoff p = true <->
    startswith (name p) "whisperx-" = true /\
    15 <= str_len (name p) /\
    ~ (hf <> "" /\ path_str p = hf) /\
    exists mtime, st_mtime p = Ok mtime /\ (mtime < cutoff)%Q.
Proof.
  intros hf cutoff p. unfold is_orphan. split.
  - intros H.
    destruct (truthy hf && (path_str p =? hf)%string) eqn:E1; [discriminate|].
    destruct (negb (startswith (name p) "whisperx-") || (str_len (name p) <? 15)) eqn:E2;
      [discriminate|].
    apply orb_false_iff in E2 as [E2a E2b].
    apply negb_false_iff in E2a. apply Z.ltb_ge in E2b.
    destruct (st_mtime p) as [m|msg]; [|discriminate].
    apply Qlt_bool_iff in H.
    repeat split; [exact E2a | exact E2b | | eauto].
    intros [Hne Hpath]. apply andb_false_iff in E1 as [E1|E1].
    + unfold truthy in E1. apply negb_false_iff, String.eqb_eq in E1. contradiction.
    + apply String.eqb_neq in E1. contradiction.
  - intros (Hs & Hl & Hhf & m & Hm & Hlt).
    assert (E1 : truthy hf && (path_str p =? hf)%string = false).
    { unfold truthy. destruct (String.eqb_spec hf "") as [Hn|Hn]; [reflexivity|].
      destruct (String.eqb_spec (path_str p) hf) as [He|He]; [|reflexivity].
      exfalso. apply Hhf. now split. }
    rewrite E1, Hs. cbn [negb orb].
    destruct (Z.ltb_spec (str_len (name p)) 15); [lia|].
    rewrite Hm. now apply Qlt_bool_iff.
Qed.

Lemma rmtree_entry_In :
  forall p fs e,
    In e (rmtree_entry p fs) <-> In e fs /\ ~ (is_dir p = true /\ name p = name e).
Proof.
  intros p fs e. unfold rmtree_entry. destruct (is_dir p).
  - rewrite filter_In, negb_true_iff. split.
    + intros [Hin Hne]. split; [exact Hin|]. intros [_ Heq].
      apply String.eqb_neq in Hne. congruence.
    + intros [Hin Hne]. split; [exact Hin|].
      apply String.eqb_neq. intros Heq. apply Hne. now split.
  - split; [intros H; split; [exact H | intros [H1 _]; discriminate] | now intros [H _]].
Qed.

Lemma sweep_In :
  forall hf cutoff paths fs e,
    In e (sweep hf cutoff paths fs) <->
    In e fs /\
    ~ exists p, In p paths /\ is_orphan hf cutoff p = true /\
                is_dir p = true /\ name p = name e.
Proof.
  intros hf cutoff. induction paths as [|p paths IH]; intros fs e.
  - simpl. split; [intros H; split; [exact H | intros (p & [] & _)] | now intros [H _]].
  - cbn [sweep]. rewrite IH. destruct (is_orphan hf cutoff p) eqn:Ho.
    + rewrite rmtree_entry_In. split.
      * intros [[Hin Hp] Hrest]. split; [exact Hin|].
        intros (q & [<- | Hq] & Hoq & Hdq & Hnq); [apply Hp; now split|].
        apply Hrest. exists q. now repeat split.
      * intros [Hin Hnone]. repeat split; [exact Hin | |].
        -- intros [Hd Hn]. apply Hnone. exists p. repeat split; [now left | | |]; assumption.
        -- intros (q & Hq & Hoq & Hdq & Hnq). apply Hnone. exists q.
           repeat split; [now right | | |]; assumption.
    + split.
      * intros [Hin Hrest]. split; [exact Hin|].
        intros (q & [<- | Hq] & Hoq & Hdq & Hnq); [congruence|].
        apply Hrest. exists q. now repeat split.
      * intros [Hin Hnone]. split; [exact Hin|].
        intros (q & Hq & Hoq & Hdq & Hnq). apply Hnone. exists q.
        repeat split; [now right | | |]; assumption.
Qed.

Lemma NoDup_map_eq :
  forall (A B : Type) (f : A -> B) (l : list A) (a b : A),
    NoDup (map f l) -> In a l -> In b l -> f a = f b -> a = b.
Proof.
  intros A B f l a b. induction l as [|c l IH]; intros Hnd Ha Hb Hf; [destruct Ha|].
  cbn [map] in Hnd. apply NoDup_cons_iff in Hnd as [Hc Hnd].
  destruct Ha as [<- | Ha]; destruct Hb as [<- | Hb].
  - reflexivity.
  - exfalso. apply Hc. rewrite Hf. now apply in_map.
  - exfalso. apply Hc. rewrite <- Hf. now apply in_map.
  - now apply IH.
Qed.

(** C9: of the directories in the listing of [/tmp], the sweep removes
    exactly those whose name starts with "whisperx-" and has at least 15
    characters, whose path is not the configured model cache, and whose
    modification time is more than 3600 seconds before now; whatever else
    is there stays as it was. *)
Theorem janitor_sweep :
  forall cfg now fs,
    NoDup (map name fs) ->
    (forall e, In e (cleanup_orphan_temps cfg now fs) -> In e fs) /\
    (forall e, In e fs ->
       let swept :=
         startswith (name e) "whisperx-" = true /\
         15 <= str_len (name e) /\
         ~ (HF_HOME cfg <> "" /\ path_str e = HF_HOME cfg) /\
         exists mtime, st_mtime e = Ok mtime /\ (mtime < now - 3600)%Q in
       (is_dir e = true ->
        (~ In e (cleanup_orphan_temps cfg now fs) <-> swept) /\
        (In e (cleanup_orphan_temps cfg now fs) <-> ~ swept)) /\
       (is_dir e = false -> In e (cleanup_orphan_temps cfg now fs))).
Proof.
  intros cfg now fs Hnd. unfold cleanup_orphan_temps. cbv zeta. split.
  - intros e He. now apply sweep_In in He.
  - intros e He.
    assert (Hsame : forall p, In p (glob_whisperx fs) -> name p = name e -> p = e).
    { intros p Hp Hn. apply filter_In in Hp as [Hp _]. eapply NoDup_map_eq; eauto. }
    split.
    + intros Hdir.
      assert (Hkey : (exists p, In p (glob_whisperx fs) /\
                                is_orphan (HF_HOME cfg) (now - 3600) p = true /\
                                is_dir p = true /\ name p = name e)
                     <-> is_orphan (HF_HOME cfg) (now - 3600) e = true).
      { split.
        - intros (p & Hp & Hop & Hdp & Hnp). now rewrite <- (Hsame p Hp Hnp).
        - intros Ho. exists e. repeat split; try assumption.
          unfold glob_whisperx. apply filter_In. split; [exact He|].
          now apply is_orphan_iff in Ho. }
      rewrite sweep_In, Hkey, <- is_orphan_iff. split.
      * split.
        -- intros Hnot.
           destruct (is_orphan (HF_HOME cfg) (now - 3600) e); [reflexivity|].
           exfalso. apply Hnot. split; [exact He | discriminate].
        -- intros Ho [_ Hno]. contradiction.
      * split; [now intros [_ Hno] | intros Hno; now split].
    + intros Hfile. apply sweep_In. split; [exact He|].
      intros (p & Hp & Hop & Hdp & Hnp).
      rewrite (Hsame p Hp Hnp) in Hdp. congruence.
Qed.

Lemma janitor_sweep_witness :
  ~ In (mkEntry "whisperx-a1b2c3d4" true (Ok 1000%Q))
       (cleanup_orphan_temps sample_config 10000 sample_tmp) /\
  In (mkEntry "whisperx-fresh123" true (Ok 9000%Q))
     (cleanup_orphan_temps sample_config 10000 sample_tmp).
Proof.
  assert (Hnd : NoDup (map name sample_tmp)).
  { repeat (constructor; [simpl; intuition discriminate|]). constructor. }
  destruct (janitor_sweep sample_config 10000 sample_tmp Hnd) as [_ H]. split.
  - apply (proj1 (H (mkEntry "whisperx-a1b2c3d4" true (Ok 1000%Q))
                    (or_introl eq_refl))); [reflexivity|].
    repeat split; [vm_compute; discriminate | | ].
    + intros [_ Hp]. vm_compute in Hp. discriminate.
    + exists 1000%Q. split; [reflexivity | vm_compute; reflexivity].
  - apply (proj1 (H (mkEntry "whisperx-fresh123" true (Ok 9000%Q))
                    (or_intror (or_introl eq_refl)))); [reflexivity|].
    intros (_ & _ & _ & m & Hm & Hlt).
    injection Hm as <-. vm_compute in Hlt. discriminate.
Defined.

(** ** Cleanup *)

Lemma keeps_ret : forall (A : Type) (a : A), keeps_resources (ret a).
Proof. intros A a s. now split. Qed.

Lemma keeps_raise : forall (A : Type) (e : exn), keeps_resources (@raise A e).
Proof. intros A e s. now split. Qed.

Lemma keeps_lift : forall (A : Type) (o : outcome A), keeps_resources (lift o).
Proof. intros A o s. now split. Qed.

Lemma keeps_bind :
  forall (A B : Type) (c : M A) (k : A -> M B),
    keeps_resources c -> (forall a, keeps_resources (k a)) -> keeps_resources (bind c k).
Proof.
  intros A B c k Hc Hk s. unfold bind. specialize (Hc s).
  destruct (c s) as [[a|e] s1]; cbn [snd] in *.
  - destruct (Hk a s1) as [H1 H2]. destruct Hc as [H3 H4]. split; congruence.
  - exact Hc.
Qed.

Lemma keeps_try_except :
  forall (A : Type) (body : M A) (handler : exn -> M A),
    keeps_resources body -> (forall e, keeps_resources (handler e)) ->
    keeps_resources (try_except body handler).
Proof.
  intros A body handler Hb Hh s. unfold try_except. specialize (Hb s).
  destruct (body s) as [[a|e] s1]; cbn [snd] in *.
  - exact Hb.
  - destruct (Hh e s1) as [H1 H2]. destruct Hb as [H3 H4]. split; congruence.
Qed.

Lemma keeps_urlopen : forall w req, keeps_resources (urlopen w req).
Proof. intros w req s. now split. Qed.

Lemma keeps_incr : keeps_resources (modify incr_transcription_count).
Proof. intros s. now split. Qed.

Create HintDb keeps.

#[local] Hint Resolve keeps_ret keeps_raise keeps_lift keeps_bind keeps_try_except
  keeps_urlopen keeps_incr : keeps.

Lemma keeps_download_audio :
  forall w vid tmpdir timeout, keeps_resources (download_audio w vid tmpdir timeout).
Proof. intros w vid tmpdir timeout s. now rewrite download_audio_state. Qed.

Lemma keeps_exhausted : forall g, keeps_resources (exhausted g).
Proof. intros g. unfold exhausted. destruct (raises g); auto with keeps. Qed.

Lemma keeps_upsert :
  forall cfg w vid segs source,
    keeps_resources (supabase_upsert_segments cfg w vid segs source).
Proof.
  intros. unfold supabase_upsert_segments. destruct (negb (configured cfg)); auto with keeps.
Qed.

Lemma keeps_heartbeat :
  forall cfg w job worker status pct n,
    keeps_resources (supabase_heartbeat cfg w job worker status pct n).
Proof.
  intros. unfold supabase_heartbeat. destruct (negb (configured cfg)); auto with keeps.
Qed.

#[local] Hint Resolve keeps_download_audio keeps_exhausted keeps_upsert keeps_heartbeat : keeps.

Lemma keeps_loop_body :
  forall cfg w req est x segs lfc, keeps_resources (loop_body cfg w req est x segs lfc).
Proof.
  intros. unfold loop_body, periodic_flush.
  destruct (_ >=? flush_interval); auto 10 with keeps.
Qed.

Lemma keeps_flush_loop :
  forall cfg w req est gen segs lfc, keeps_resources (flush_loop cfg w req est gen segs lfc).
Proof.
  intros cfg w req est. induction gen as [|x gen IH]; intros segs lfc; cbn [flush_loop].
  - auto with keeps.
  - apply keeps_bind; [apply keeps_loop_body | intros a; apply IH].
Qed.

Lemma keeps_final_flush :
  forall cfg w vid segs, keeps_resources (final_flush cfg w vid segs).
Proof. intros. unfold final_flush. destruct segs; auto with keeps. Qed.

#[local] Hint Resolve keeps_flush_loop keeps_final_flush : keeps.

Lemma keeps_reraise :
  forall (A : Type) (body : M A), keeps_resources body -> keeps_resources (reraise_as_500 body).
Proof.
  intros A body Hb. unfold reraise_as_500. apply keeps_try_except; [exact Hb|].
  intros [c dt|msg]; auto with keeps.
Qed.

Lemma keeps_transcribe_job :
  forall w vid tmpdir, keeps_resources (transcribe_job w vid tmpdir).
Proof.
  intros. unfold transcribe_job, transcribe_audio, collect. auto 12 with keeps.
Qed.

Lemma keeps_progressive_job :
  forall cfg w req tmpdir, keeps_resources (progressive_job cfg w req tmpdir).
Proof.
  intros. unfold progressive_job, transcribe_audio.
  apply keeps_bind; [auto with keeps | intros audio_path].
  apply keeps_bind; [auto with keeps | intros _].
  apply keeps_bind; [auto with keeps | intros gi].
  apply keeps_bind; [auto with keeps | intros st].
  auto 12 with keeps.
Qed.

(** The [finally] block, entered with the lock held: whatever the body did,
    the lock is released and the scratch directory is gone. *)
Lemma try_finally_cleans_up :
  forall (A : Type) (body : M A) (d : string) (s : state),
    keeps_resources body ->
    _gpu_lock s = true ->
    let out := try_finally body (cleanup d) s in
    _gpu_lock (snd out) = false /\
    _currently_processing (snd out) = None /\
    ~ In d (tmp (snd out)).
Proof.
  intros A body d s Hb Hlock out. subst out.
  unfold try_finally. destruct (Hb s) as [H1 H2].
  destruct (body s) as [r s1]. cbn [snd fst] in *.
  unfold cleanup, bind, modify, lock_release, rmtree.
  cbn [_gpu_lock set_currently_processing]. rewrite H1, Hlock. cbn.
  repeat split. apply remove_In.
Qed.

(** Once the scratch directory exists, every way out of [transcribe] and of
    [transcribe_progressive] releases the lock and removes the directory. *)
Lemma transcribe_cleans_up :
  forall w req s d,
    invalid_video_id (video_id req) = false ->
    _gpu_lock s = false ->
    mkdtemp_result w = Ok d ->
    let out := transcribe w req s in
    _gpu_lock (snd out) = false /\
    _currently_processing (snd out) = None /\
    ~ In d (tmp (snd out)).
Proof.
  intros w req s d Hvid Hfree Hmk out.
  assert (E : out =
              try_finally (reraise_as_500 (transcribe_job w (video_id req) d)) (cleanup d)
                (set_tmp (d :: tmp s)
                   (set_currently_processing (Some (video_id req)) (set_gpu_lock true s)))).
  { subst out. unfold transcribe. rewrite Hvid.
    unfold bind at 1, lock_acquire. rewrite Hfree. cbn [negb].
    unfold bind at 1, modify. unfold bind at 1, mkdtemp. rewrite Hmk. reflexivity. }
  rewrite E.
  apply (try_finally_cleans_up response
           (reraise_as_500 (transcribe_job w (video_id req) d)) d).
  - apply keeps_reraise, keeps_transcribe_job.
  - reflexivity.
Qed.

Lemma transcribe_progressive_cleans_up :
  forall cfg w req s d,
    configured cfg = true ->
    invalid_video_id (pr_video_id req) = false ->
    _gpu_lock s = false ->
    mkdtemp_result w = Ok d ->
    let out := transcribe_progressive cfg w req s in
    _gpu_lock (snd out) = false /\
    _currently_processing (snd out) = None /\
    ~ In d (tmp (snd out)).
Proof.
  intros cfg w req s d Hconf Hvid Hfree Hmk out.
  assert (E : out =
              try_finally (reraise_as_500 (progressive_job cfg w req d)) (cleanup d)
                (set_tmp (d :: tmp s)
                   (set_currently_processing (Some (pr_video_id req)) (set_gpu_lock true s)))).
  { subst out. unfold transcribe_progressive. rewrite Hconf, Hvid. cbn [negb].
    unfold bind at 1, lock_acquire. rewrite Hfree. cbn [negb].
    unfold bind at 1, modify. unfold bind at 1, mkdtemp. rewrite Hmk. reflexivity. }
  rewrite E.
  apply (try_finally_cleans_up response
           (reraise_as_500 (progressive_job cfg w req d)) d).
  - apply keeps_reraise, keeps_progressive_job.
  - reflexivity.
Qed.

(** When [mkdtemp] raises, the handlers are left before their [try]: the
    exception goes out with the lock still held. *)
Lemma mkdtemp_failure_keeps_lock :
  forall cfg w msg,
    mkdtemp_result w = Fails msg ->
    (forall req s,
        invalid_video_id (video_id req) = false -> _gpu_lock s = false ->
        transcribe w req s =
          (Raise (Exception msg),
           set_currently_processing (Some (video_id req)) (set_gpu_lock true s))) /\
    (forall req s,
        configured cfg = true ->
        invalid_video_id (pr_video_id req) = false -> _gpu_lock s = false ->
        transcribe_progressive cfg w req s =
          (Raise (Exception msg),
           set_currently_processing (Some (pr_video_id req)) (set_gpu_lock true s))).
Proof.
  intros cfg w msg Hmk. split.
  - intros req s Hvid Hfree. unfold transcribe. rewrite Hvid.
    unfold bind at 1, lock_acquire. rewrite Hfree. cbn [negb].
    unfold bind at 1, modify. unfold bind at 1, mkdtemp. rewrite Hmk. reflexivity.
  - intros req s Hconf Hvid Hfree. unfold transcribe_progressive. rewrite Hconf, Hvid.
    cbn [negb]. unfold bind at 1, lock_acquire. rewrite Hfree. cbn [negb].
    unfold bind at 1, modify. unfold bind at 1, mkdtemp. rewrite Hmk. reflexivity.
Qed.

(** C1, at a request the code can receive: a valid identifier, the lock
    free, and [/tmp] full so that [tempfile.mkdtemp] raises.  Both handlers
    are left with the lock still held and the identifier still recorded as
    in flight, and the next valid request is answered 503. *)
Theorem guard_leaks_when_mkdtemp_fails :
  let sync := transcribe disk_full (mkTranscribeRequest "dQw4w9WgXcQ") idle in
  let progressive := transcribe_progressive sample_config disk_full sample_request idle in
  fst sync = Raise (Exception "[Errno 28] No space left on device") /\
  _gpu_lock (snd sync) = true /\
  _currently_processing (snd sync) = Some "dQw4w9WgXcQ" /\
  fst progressive = Raise (Exception "[Errno 28] No space left on device") /\
  _gpu_lock (snd progressive) = true /\
  fst (transcribe (job_world 3 true) (mkTranscribeRequest "dQw4w9WgXcQ") (snd sync))
    = Raise (HTTPException 503 GpuBusy) /\
  fst (transcribe_progressive sample_config (job_world 3 true) sample_request
         (snd progressive))
    = Raise (HTTPException 503 GpuBusy).
Proof.
  destruct (mkdtemp_failure_keeps_lock sample_config disk_full
              "[Errno 28] No space left on device" eq_refl) as [Hs Hp].
  cbv zeta.
  rewrite (Hs (mkTranscribeRequest "dQw4w9WgXcQ") idle eq_refl eq_refl).
  rewrite (Hp sample_request idle eq_refl eq_refl eq_refl).
  repeat split.
Qed.


(** * Further properties *)

(** * Further properties *)

(** ** seg_to_dict *)

Lemma rstrip_first :
  forall c s, isspace c = false -> exists r, rstrip (String c s) = String c r.
Proof.
  intros c s Hc. cbn [rstrip]. destruct (rstrip s).
  - rewrite Hc. now exists EmptyString.
  - eauto.
Qed.

Lemma lstrip_first :
  forall s, match first_char (lstrip s) with
            | Some c => isspace c = false
            | None => True
            end.
Proof.
  induction s as [|c s IH]; [exact I|].
  cbn [lstrip]. destruct (isspace c) eqn:E; [exact IH | exact E].
Qed.

Lemma rstrip_last :
  forall s, match last_char (rstrip s) with
            | Some c => isspace c = false
            | None => True
            end.
Proof.
  induction s as [|c s IH]; [exact I|].
  cbn [rstrip]. destruct (rstrip s) as [|c' r] eqn:E.
  - destruct (isspace c) eqn:Ec; [exact I | exact Ec].
  - exact IH.
Qed.

Lemma lstrip_fixed :
  forall s, match first_char s with
            | Some c => isspace c = false
            | None => True
            end -> lstrip s = s.
Proof.
  intros [|c s] H; [reflexivity|]. cbn in *. now rewrite H.
Qed.

Lemma rstrip_idem : forall s, rstrip (rstrip s) = rstrip s.
Proof.
  induction s as [|c s IH]; [reflexivity|].
  cbn [rstrip]. destruct (rstrip s) as [|c' r] eqn:E.
  - destruct (isspace c) eqn:Ec; [reflexivity|]. cbn. now rewrite Ec.
  - cbn [rstrip]. cbn [rstrip] in IH. rewrite IH. reflexivity.
Qed.

Lemma strip_first :
  forall s, match first_char (strip s) with
            | Some c => isspace c = false
            | None => True
            end.
Proof.
  intros s. unfold strip. pose proof (lstrip_first s) as H.
  destruct (lstrip s) as [|c t]; [exact I|]. cbn in H.
  destruct (rstrip_first c t H) as [r ->]. exact H.
Qed.

(** X1: the text of a converted segment never begins or ends with
    whitespace, and stripping it again changes nothing. *)
Theorem seg_to_dict_text_stripped :
  forall s : Segment,
    padded (text (seg_to_dict s)) = false /\
    strip (text (seg_to_dict s)) = text (seg_to_dict s).
Proof.
  intros s. cbn [seg_to_dict text]. split.
  - unfold padded. pose proof (strip_first (s_text s)) as Hf.
    pose proof (rstrip_last (lstrip (s_text s))) as Hl. fold (strip (s_text s)) in Hl.
    destruct (first_char (strip (s_text s))); [|reflexivity].
    destruct (last_char (strip (s_text s))); [|reflexivity].
    now rewrite Hf, Hl.
  - unfold strip at 1. rewrite (lstrip_fixed _ (strip_first (s_text s))).
    unfold strip. apply rstrip_idem.
Qed.

(** X2: a converted segment has a "words" entry exactly when the model
    gave a non-empty word list; the entry keeps, in order, the words whose
    stripped text is not empty, and no kept word has an empty text. *)
Theorem seg_to_dict_words :
  forall s : Segment,
    (words (seg_to_dict s) = None <-> s_words s = None \/ s_words s = Some []) /\
    (forall ws, words (seg_to_dict s) = Some ws ->
       exists raw,
         s_words s = Some raw /\
         ws = map word_to_dict (filter (fun x => truthy (strip (word x))) raw) /\
         (List.length ws <= List.length raw)%nat /\
         Forall (fun wd => w_text wd <> "" /\ padded (w_text wd) = false) ws).
Proof.
  intros s. cbn [seg_to_dict words]. split.
  - destruct (s_words s) as [[|x raw]|]; split; intros H; auto;
      try discriminate; destruct H as [H|H]; discriminate.
  - intros ws H. destruct (s_words s) as [[|x raw]|]; try discriminate.
    remember (x :: raw) as l eqn:Hl. clear Hl.
    injection H as <-. exists l. repeat split.
    + rewrite length_map. apply filter_length_le.
    + apply Forall_forall. intros wd Hin.
      apply in_map_iff in Hin as (y & <- & Hy). apply filter_In in Hy as [_ Hy].
      cbn [word_to_dict w_text]. split.
      * intros E. unfold truthy in Hy. rewrite E in Hy. discriminate.
      * unfold padded. pose proof (strip_first (word y)) as Hf.
        pose proof (rstrip_last (lstrip (word y))) as Hl. fold (strip (word y)) in Hl.
        destruct (first_char (strip (word y))); [|reflexivity].
        destruct (last_char (strip (word y))); [|reflexivity].
        now rewrite Hf, Hl.
Qed.

Lemma seg_to_dict_words_witness :
  exists raw,
    s_words (mkSegment "hi there" 0 1 (Some [mkWord " hi" 0; mkWord "  " 0.5; mkWord " there" 0.5]))
    = Some raw /\
    [mkWordDict "hi" 0; mkWordDict "there" 500]
    = map word_to_dict (filter (fun x => truthy (strip (word x))) raw) /\
    (List.length [mkWordDict "hi" 0; mkWordDict "there" 500] <= List.length raw)%nat /\
    Forall (fun wd => w_text wd <> "" /\ padded (w_text wd) = false)
           [mkWordDict "hi" 0; mkWordDict "there" 500].
Proof.
  apply (proj2 (seg_to_dict_words
                  (mkSegment "hi there" 0 1
                     (Some [mkWord " hi" 0; mkWord "  " 0.5; mkWord " there" 0.5])))).
  reflexivity.
Defined.

(** ** Rounding in seg_to_dict *)

Lemma round_half_even_cases :
  forall y : Q,
    let f := Qfloor y in
    (inject_Z f <= y /\ y < inject_Z f + 1)%Q /\
    ((y - inject_Z f < 1 # 2)%Q /\ round_half_even y = f \/
     (y - inject_Z f == 1 # 2)%Q /\
       round_half_even y = (if Z.even f then f else f + 1) \/
     ((1 # 2) < y - inject_Z f)%Q /\ round_half_even y = f + 1).
Proof.
  intros y f. split.
  - split; [apply Qfloor_le|].
    pose proof (Qlt_floor y) as H. rewrite inject_Z_plus in H. exact H.
  - unfold round_half_even. fold f.
    destruct (y - inject_Z f ?= 1 # 2)%Q eqn:E.
    + apply Qeq_alt in E. right; left. now split.
    + apply Qlt_alt in E. left. now split.
    + apply Qgt_alt in E. right; right. now split.
Qed.


Lemma round_half_even_mono :
  forall x y : Q, (x <= y)%Q -> round_half_even x <= round_half_even y.
Proof.
  intros x y Hxy.
  pose proof (Qfloor_resp_le x y Hxy) as Hf.
  destruct (round_half_even_cases x) as [[Hxl Hxh] Hx].
  destruct (round_half_even_cases y) as [[Hyl Hyh] Hy].
  destruct (Z.eq_dec (Qfloor x) (Qfloor y)) as [E|E].
  - rewrite <- E in *.
    destruct Hx as [[Hx ->] | [[Hx ->] | [Hx ->]]];
      destruct Hy as [[Hy ->] | [[Hy ->] | [Hy ->]]];
      destruct (Z.even (Qfloor x)); try lia; exfalso; lra.
  - assert (Hlt : Qfloor x + 1 <= Qfloor y) by lia.
    assert (Hrx : round_half_even x <= Qfloor x + 1)
      by (destruct Hx as [[_ ->] | [[_ ->] | [_ ->]]]; try destruct (Z.even (Qfloor x)); lia).
    assert (Hry : Qfloor y <= round_half_even y)
      by (destruct Hy as [[_ ->] | [[_ ->] | [_ ->]]]; try destruct (Z.even (Qfloor y)); lia).
    lia.
Qed.

Lemma pow10_pos : forall n : nat, (0 < inject_Z (10 ^ Z.of_nat n))%Q.
Proof.
  intros n. change 0%Q with (inject_Z 0). rewrite <- Zlt_Qlt.
  apply Z.pow_pos_nonneg; lia.
Qed.

Lemma round_mono :
  forall (x y : Q) (n : nat), (x <= y)%Q -> (round x n <= round y n)%Q.
Proof.
  intros x y n Hxy. unfold round. cbv zeta.
  pose proof (pow10_pos n) as Hp. set (p := inject_Z (10 ^ Z.of_nat n)) in *.
  unfold Qdiv. apply Qmult_le_compat_r.
  - rewrite <- Zle_Qle. apply round_half_even_mono.
    apply Qmult_le_compat_r; [exact Hxy | lra].
  - apply Qlt_le_weak, Qinv_lt_0_compat, Hp.
Qed.

Lemma round_nonneg :
  forall (x : Q) (n : nat), (0 <= x)%Q -> (0 <= round x n)%Q.
Proof.
  intros x n Hx. unfold round. cbv zeta.
  pose proof (pow10_pos n) as Hp. set (p := inject_Z (10 ^ Z.of_nat n)) in *.
  unfold Qdiv. apply Qmult_le_0_compat.
  - change 0%Q with (inject_Z 0). rewrite <- Zle_Qle.
    assert (H0 : (0 <= x * p)%Q) by (apply Qmult_le_0_compat; lra).
    change 0 with (round_half_even 0). now apply round_half_even_mono.
  - apply Qlt_le_weak, Qinv_lt_0_compat, Hp.
Qed.


(** X3: conversion keeps segments in order and on the non-negative side:
    a stream whose start times never decrease gives offsets that never
    decrease, and non-negative start times give non-negative offsets. *)
Theorem seg_to_dict_keeps_order :
  forall gen : list Segment,
    (StronglySorted Qle (map s_start gen) ->
     StronglySorted Qle (map offset (map seg_to_dict gen))) /\
    (Forall (fun s => (0 <= s_start s)%Q) gen ->
     Forall (fun x => (0 <= offset x)%Q) (map seg_to_dict gen)).
Proof.
  intros gen. split.
  - induction gen as [|a gen IH]; intros H; [constructor|].
    cbn [map] in *. apply StronglySorted_inv in H as [Hs Hhd].
    constructor; [now apply IH|].
    rewrite Forall_forall in *. intros o Ho.
    apply in_map_iff in Ho as (x & <- & Hx). apply in_map_iff in Hx as (b & <- & Hb).
    cbn [seg_to_dict offset]. apply round_mono. apply Hhd. now apply in_map.
  - intros H. apply Forall_forall. intros x Hx.
    apply in_map_iff in Hx as (b & <- & Hb). rewrite Forall_forall in H.
    cbn [seg_to_dict offset]. apply round_nonneg. now apply H.
Qed.

Lemma seg_to_dict_keeps_order_witness :
  StronglySorted Qle (map offset (map seg_to_dict (map sample_segment (seq 0 3)))).
Proof.
  apply (proj1 (seg_to_dict_keeps_order (map sample_segment (seq 0 3)))).
  repeat (constructor; [|repeat (constructor; [vm_compute; discriminate|]); constructor]).
  constructor.
Defined.





(** ** download_audio *)

(** X6: [download_audio] returns a path exactly when yt-dlp exited with
    code 0, left at least one [audio.*] file, and the first such file has
    between 1000 and 1,500,000,000 bytes; the path returned is that first
    file, whatever else matched. *)
Theorem download_audio_returns_iff :
  forall w vid tmpdir timeout s path,
    fst (download_audio w vid tmpdir timeout s) = Return path <->
    exists r rest,
      run_result w = Ok r /\ returncode r = 0 /\
      glob_result w = path :: rest /\
      1000 <= getsize w path <= _MAX_AUDIO_BYTES.
Proof.
  intros w vid tmpdir timeout s path. split.
  - unfold download_audio, bind, lift, raise, ret.
    destruct (run_result w) as [r|msg]; cbn [result_of]; [|discriminate].
    destruct (Z.eqb_spec (returncode r) 0) as [Hrc|Hrc]; cbn [negb fst]; [|discriminate].
    destruct (glob_result w) as [|p rest]; [discriminate|].
    destruct (Z.ltb_spec (getsize w p) 1000); [discriminate|].
    destruct (getsize w p >? _MAX_AUDIO_BYTES) eqn:E; [discriminate|].
    intros [= <-]. exists r, rest. repeat split; try assumption.
    destruct (Z.gtb_spec (getsize w p) _MAX_AUDIO_BYTES); [discriminate | lia].
  - intros (r & rest & Hrun & Hrc & Hglob & Hsize).
    rewrite (download_audio_sized w vid tmpdir timeout s r path rest Hrun Hrc Hglob).
    destruct (Z.ltb_spec (getsize w path) 1000); [lia|].
    destruct (Z.gtb_spec (getsize w path) _MAX_AUDIO_BYTES); [lia | reflexivity].
Qed.

Lemma take_str_prefix :
  forall n s,
    (String.length (take_str n s) <= n)%nat /\ prefix (take_str n s) s = true.
Proof.
  unfold take_str. induction n as [|n IH]; intros s.
  - destruct s; cbn; split; auto.
  - destruct s as [|c s]; [cbn; split; [lia | reflexivity]|].
    cbn [substring String.length prefix]. destruct (IH s) as [Hl Hp].
    split; [lia|]. destruct (ascii_dec c c) as [_|Hne]; [exact Hp | contradiction].
Qed.

(** X7: the diagnostic of a failed download is cut short: a non-zero exit
    code gives 502 with the first 300 characters of stderr at most, and a
    run that left no file gives 502 with the first 200 characters of stdout
    at most. *)
Theorem download_audio_diagnostics :
  forall w vid tmpdir timeout s r,
    run_result w = Ok r ->
    (returncode r <> 0 ->
     exists excerpt,
       fst (download_audio w vid tmpdir timeout s) =
         Raise (HTTPException 502 (AudioDownloadFailed excerpt)) /\
       (String.length excerpt <= 300)%nat /\ prefix excerpt (stderr r) = true) /\
    (returncode r = 0 -> glob_result w = [] ->
     exists excerpt,
       fst (download_audio w vid tmpdir timeout s) =
         Raise (HTTPException 502 (NoAudioFile excerpt)) /\
       (String.length excerpt <= 200)%nat /\ prefix excerpt (stdout r) = true).
Proof.
  intros w vid tmpdir timeout s r Hrun. split.
  - intros Hrc. exists (take_str 300 (stderr r)). split; [|apply take_str_prefix].
    unfold download_audio, bind, lift, raise. rewrite Hrun. cbn [result_of].
    destruct (Z.eqb_spec (returncode r) 0); [contradiction | reflexivity].
  - intros Hrc Hglob. exists (take_str 200 (stdout r)). split; [|apply take_str_prefix].
    unfold download_audio, bind, lift, raise. rewrite Hrun. cbn [result_of].
    rewrite Hrc, Hglob. reflexivity.
Qed.

Lemma download_audio_diagnostics_witness :
  exists excerpt,
    fst (download_audio
           (mkWorld (Ok "/tmp/whisperx-a1b2c3d4")
                    (Ok (mkCompleted 1 "" "ERROR: Video unavailable")) [] (fun _ => 0)
                    (Fails "unreachable") (fun _ _ => true))
           "dQw4w9WgXcQ" "/tmp/whisperx-a1b2c3d4" 600 idle) =
      Raise (HTTPException 502 (AudioDownloadFailed excerpt)) /\
    (String.length excerpt <= 300)%nat /\
    prefix excerpt "ERROR: Video unavailable" = true.
Proof.
  apply (proj1 (download_audio_diagnostics
                  (mkWorld (Ok "/tmp/whisperx-a1b2c3d4")
                           (Ok (mkCompleted 1 "" "ERROR: Video unavailable")) []
                           (fun _ => 0) (Fails "unreachable") (fun _ _ => true))
                  "dQw4w9WgXcQ" "/tmp/whisperx-a1b2c3d4" 600 idle
                  (mkCompleted 1 "" "ERROR: Video unavailable") eq_refl)).
  cbn. discriminate.
Defined.

(** ** supabase_heartbeat and supabase_upsert_segments *)




(** ** The handlers, path by path *)

Lemma try_finally_run :
  forall (A : Type) (job : M A) (d : string) (s0 : state),
    _gpu_lock (snd (job s0)) = true ->
    try_finally (reraise_as_500 job) (cleanup d) s0 =
      (match fst (job s0) with
       | Return a => Return a
       | Raise e => Raise (as_500 e)
       end,
       cleaned d (snd (job s0))).
Proof.
  intros A job d s0 Hlock. unfold try_finally, reraise_as_500, try_except.
  destruct (job s0) as [[a|e] s1]; cbn [fst snd] in *.
  - unfold cleanup, bind, modify, lock_release, rmtree.
    cbn [_gpu_lock set_currently_processing]. rewrite Hlock. reflexivity.
  - assert (E : (match e with
                 | HTTPException _ _ => raise e
                 | Exception msg => raise (HTTPException 500 (Str msg))
                 end : M A) s1 = (Raise (as_500 e), s1)) by (destruct e; reflexivity).
    rewrite E. unfold cleanup, bind, modify, lock_release, rmtree.
    cbn [_gpu_lock set_currently_processing]. rewrite Hlock. reflexivity.
Qed.

Lemma transcribe_shape :
  forall w req s d,
    invalid_video_id (video_id req) = false ->
    _gpu_lock s = false ->
    mkdtemp_result w = Ok d ->
    let job := transcribe_job w (video_id req) d (try_entry (video_id req) d s) in
    transcribe w req s =
      (match fst job with
       | Return a => Return a
       | Raise e => Raise (as_500 e)
       end, cleaned d (snd job)).
Proof.
  intros w req s d Hvid Hfree Hmk job. subst job.
  unfold transcribe. rewrite Hvid.
  unfold bind at 1, lock_acquire. rewrite Hfree. cbn [negb].
  unfold bind at 1, modify. unfold bind at 1, mkdtemp. rewrite Hmk.
  apply try_finally_run.
  destruct (keeps_transcribe_job w (video_id req) d (try_entry (video_id req) d s)) as [H _].
  exact H.
Qed.

Lemma transcribe_progressive_shape :
  forall cfg w req s d,
    configured cfg = true ->
    invalid_video_id (pr_video_id req) = false ->
    _gpu_lock s = false ->
    mkdtemp_result w = Ok d ->
    let job := progressive_job cfg w req d (try_entry (pr_video_id req) d s) in
    transcribe_progressive cfg w req s =
      (match fst job with
       | Return a => Return a
       | Raise e => Raise (as_500 e)
       end, cleaned d (snd job)).
Proof.
  intros cfg w req s d Hconf Hvid Hfree Hmk job. subst job.
  unfold transcribe_progressive. rewrite Hconf, Hvid. cbn [negb].
  unfold bind at 1, lock_acquire. rewrite Hfree. cbn [negb].
  unfold bind at 1, modify. unfold bind at 1, mkdtemp. rewrite Hmk.
  apply try_finally_run.
  destruct (keeps_progressive_job cfg w req d (try_entry (pr_video_id req) d s)) as [H _].
  exact H.
Qed.

(** The body of the [try] of [transcribe], outcome by outcome. *)
Lemma transcribe_job_run :
  forall w vid d s0,
    transcribe_job w vid d s0 =
      match fst (download_audio w vid d 600 s0) with
      | Raise e => (Raise e, s0)
      | Return _ =>
          match transcribe_result w with
          | Fails msg => (Raise (Exception msg), s0)
          | Ok (g, info) =>
              match raises g with
              | Some msg => (Raise (Exception msg), s0)
              | None =>
                  (Return (TranscribeResponse (map seg_to_dict (yields g)) (info_duration info)),
                   incr_transcription_count s0)
              end
          end
      end.
Proof.
  intros w vid d s0. unfold transcribe_job. unfold bind at 1.
  rewrite (surjective_pairing (download_audio w vid d 600 s0)), download_audio_state.
  cbn [fst]. destruct (fst (download_audio w vid d 600 s0)) as [p|e]; [|reflexivity].
  unfold bind at 1, transcribe_audio, lift.
  destruct (transcribe_result w) as [[g info]|msg]; cbn [result_of]; [|reflexivity].
  unfold bind at 1, collect, exhausted. unfold bind at 1. cbn [fst snd].
  destruct (raises g); reflexivity.
Qed.

(** The body of the [try] of [transcribe_progressive], outcome by outcome. *)
Lemma progressive_job_run :
  forall cfg w req d s0,
    configured cfg = true ->
    progressive_job cfg w req d s0 =
      match fst (download_audio w (pr_video_id req) d 600 s0) with
      | Raise e => (Raise e, s0)
      | Return _ =>
          let s1 :=
            with_log s0
              [(PostHeartbeat (transcribing_heartbeat req),
                urlopen_ok w (PostHeartbeat (transcribing_heartbeat req))
                           (List.length (network s0)))] in
          match transcribe_result w with
          | Fails msg => (Raise (Exception msg), s1)
          | Ok (g, info) =>
              let s2 :=
                snd (flush_loop cfg w req (float_or (info_duration info) 600)
                       (yields g) [] 0 s1) in
              match raises g with
              | Some msg => (Raise (Exception msg), s2)
              | None =>
                  let segs := map seg_to_dict (yields g) in
                  (Return (ProgressiveResponse segs (info_duration info) (len segs)),
                   incr_transcription_count
                     (snd (final_flush cfg w (pr_video_id req) segs s2)))
              end
          end
      end.
Proof.
  intros cfg w req d s0 Hconf. unfold progressive_job. unfold bind at 1.
  rewrite (surjective_pairing (download_audio w (pr_video_id req) d 600 s0)),
    download_audio_state.
  cbn [fst]. destruct (fst (download_audio w (pr_video_id req) d 600 s0)) as [p|e];
    [|reflexivity].
  unfold bind at 1. rewrite (supabase_heartbeat_run cfg w Hconf). cbv zeta.
  change (mkHeartbeat (job_id req) (worker_id req)
            (if truthy_opt (Some "transcribing") then Some "transcribing" else None)
            None None) with (transcribing_heartbeat req).
  unfold bind at 1, transcribe_audio, lift.
  destruct (transcribe_result w) as [[g info]|msg]; cbn [result_of fst snd]; [|reflexivity].
  unfold bind at 1.
  match goal with
  | |- context [flush_loop _ _ _ ?e ?gen ?sg ?l ?st] =>
      destruct (flush_loop_run cfg w Hconf req e gen sg l st) as (lfc' & delta & E)
  end.
  rewrite E. cbn [fst snd app].
  unfold bind at 1, exhausted. destruct (raises g); [reflexivity|].
  unfold ret at 1. unfold bind at 1.
  rewrite (final_flush_run cfg w _ _ _ Hconf). reflexivity.
Qed.

Lemma transcribe_job_effect :
  forall w vid d s0,
    snd (transcribe_job w vid d s0) =
      if succeeded (fst (transcribe_job w vid d s0)) then incr_transcription_count s0 else s0.
Proof.
  intros w vid d s0. rewrite transcribe_job_run.
  destruct (fst (download_audio w vid d 600 s0)); [|reflexivity].
  destruct (transcribe_result w) as [[g info]|msg]; [|reflexivity].
  destruct (raises g); reflexivity.
Qed.


(** X10: [transcribe] never talks to the store or the tracker: on every
    path, whatever the outcome, the log of outbound requests is as it was. *)
Theorem transcribe_sends_nothing :
  forall w req s, network (snd (transcribe w req s)) = network s.
Proof.
  intros w req s.
  destruct (invalid_video_id (video_id req)) eqn:Hvid.
  { unfold transcribe. rewrite Hvid. reflexivity. }
  destruct (_gpu_lock s) eqn:Hlock.
  { unfold transcribe. rewrite Hvid. unfold bind, lock_acquire. rewrite Hlock. reflexivity. }
  destruct (mkdtemp_result w) as [d|msg] eqn:Hmk.
  - rewrite (transcribe_shape w req s d Hvid Hlock Hmk). cbv zeta. cbn [snd].
    rewrite transcribe_job_effect.
    destruct (succeeded _); reflexivity.
  - unfold transcribe. rewrite Hvid. unfold bind at 1, lock_acquire. rewrite Hlock.
    cbn [negb]. unfold bind at 1, modify. unfold bind at 1, mkdtemp. rewrite Hmk.
    reflexivity.
Qed.

(** X11: while the lock is held, a request with a valid identifier is
    answered 503 by either endpoint, and nothing in the process state
    changes: the job in flight is not disturbed. *)
Theorem busy_is_rejected :
  forall cfg w s,
    _gpu_lock s = true ->
    (forall req, invalid_video_id (video_id req) = false ->
       transcribe w req s = (Raise (HTTPException 503 GpuBusy), s)) /\
    (forall req, configured cfg = true -> invalid_video_id (pr_video_id req) = false ->
       transcribe_progressive cfg w req s = (Raise (HTTPException 503 GpuBusy), s)).
Proof.
  intros cfg w s Hlock. split.
  - intros req Hvid. unfold transcribe. rewrite Hvid.
    unfold bind, lock_acquire. rewrite Hlock. reflexivity.
  - intros req Hconf Hvid. unfold transcribe_progressive. rewrite Hconf, Hvid.
    cbn [negb]. unfold bind, lock_acquire. rewrite Hlock. reflexivity.
Qed.

Lemma busy_is_rejected_witness :
  transcribe (job_world 3 true) (mkTranscribeRequest "dQw4w9WgXcQ")
    (mkState true (Some "9bZkp7q19f0") 4 ["/tmp/whisperx-zzzzzzzz"] [])
  = (Raise (HTTPException 503 GpuBusy),
     mkState true (Some "9bZkp7q19f0") 4 ["/tmp/whisperx-zzzzzzzz"] []).
Proof.
  apply (proj1 (busy_is_rejected sample_config (job_world 3 true)
                  (mkState true (Some "9bZkp7q19f0") 4 ["/tmp/whisperx-zzzzzzzz"] [])
                  eq_refl)).
  reflexivity.
Defined.

(** X12: a run of [transcribe] that gets its scratch directory, its
    audio and a stream: when the stream ends, the response holds every
    segment, converted, in the order of the stream, with the duration the
    model reported, and the job counts as completed; when the stream raises,
    the answer is 500 with the message, and the job does not count.  Either
    way the lock is free, no identifier is in flight and the scratch
    directory is gone. *)
Theorem transcribe_run :
  forall w req s d r path rest g info,
    invalid_video_id (video_id req) = false ->
    _gpu_lock s = false ->
    mkdtemp_result w = Ok d ->
    run_result w = Ok r -> returncode r = 0 -> glob_result w = path :: rest ->
    1000 <= getsize w path <= _MAX_AUDIO_BYTES ->
    transcribe_result w = Ok (g, info) ->
    transcribe w req s =
      match raises g with
      | None =>
          (Return (TranscribeResponse (map seg_to_dict (yields g)) (info_duration info)),
           mkState false None (_transcription_count s + 1)
                   (remove string_dec d (d :: tmp s)) (network s))
      | Some msg =>
          (Raise (HTTPException 500 (Str msg)),
           mkState false None (_transcription_count s)
                   (remove string_dec d (d :: tmp s)) (network s))
      end.
Proof.
  intros w req s d r path rest g info Hvid Hfree Hmk Hrun Hrc Hglob Hsize Htr.
  rewrite (transcribe_shape w req s d Hvid Hfree Hmk). cbv zeta.
  rewrite transcribe_job_run.
  rewrite (download_audio_ok w r path rest Hrun Hrc Hglob Hsize). cbn [fst].
  rewrite Htr. destruct (raises g); reflexivity.
Qed.

Lemma transcribe_run_witness :
  transcribe (job_world 3 true) (mkTranscribeRequest "dQw4w9WgXcQ") idle =
    (Return (TranscribeResponse (map seg_to_dict (yields (sample_stream 3)))
               (info_duration (sample_info 3))),
     mkState false None 1 [] []).
Proof.
  refine (eq_trans
            (transcribe_run (job_world 3 true) (mkTranscribeRequest "dQw4w9WgXcQ") idle
               "/tmp/whisperx-a1b2c3d4" (mkCompleted 0 "" "")
               "/tmp/whisperx-a1b2c3d4/audio.webm" [] (sample_stream 3) (sample_info 3)
               eq_refl eq_refl eq_refl eq_refl eq_refl eq_refl _ eq_refl) _).
  - cbn. unfold _MAX_AUDIO_BYTES. lia.
  - reflexivity.
Defined.

Lemma download_audio_errors :
  forall w vid tmpdir timeout s e,
    fst (download_audio w vid tmpdir timeout s) = Raise e ->
    handler_error (as_500 e).
Proof.
  intros w vid tmpdir timeout s e. unfold download_audio, bind, lift, raise, ret.
  destruct (run_result w) as [r|msg]; cbn [result_of fst].
  - destruct (negb (returncode r =? 0)).
    + intros [= <-]. eexists _, _. split; [reflexivity | auto].
    + destruct (glob_result w) as [|p ps].
      * intros [= <-]. eexists _, _. split; [reflexivity | auto].
      * destruct (getsize w p <? 1000).
        -- intros [= <-]. eexists _, _. split; [reflexivity | auto].
        -- destruct (getsize w p >? _MAX_AUDIO_BYTES); [|discriminate].
           intros [= <-]. eexists _, _. split; [reflexivity | auto].
  - intros [= <-]. eexists _, _. split; [reflexivity | auto].
Qed.

Lemma download_audio_any_state :
  forall w vid tmpdir timeout s1 s2,
    fst (download_audio w vid tmpdir timeout s1) = fst (download_audio w vid tmpdir timeout s2).
Proof.
  intros. unfold download_audio, bind, lift, raise, ret.
  destruct (run_result w) as [r|msg]; cbn [result_of]; [|reflexivity].
  destruct (negb (returncode r =? 0)); [reflexivity|].
  destruct (glob_result w) as [|p ps]; [reflexivity|].
  destruct (getsize w p <? 1000); [reflexivity|].
  destruct (getsize w p >? _MAX_AUDIO_BYTES); reflexivity.
Qed.

(** X13: once the scratch directory exists, neither handler lets any
    exception out except an HTTPException, and its code is 502, 413 or
    500: timeouts, model failures and everything else become 500. *)
Theorem errors_are_http_once_set_up :
  forall cfg w d,
    mkdtemp_result w = Ok d ->
    (forall req s e,
        invalid_video_id (video_id req) = false -> _gpu_lock s = false ->
        fst (transcribe w req s) = Raise e -> handler_error e) /\
    (forall req s e,
        configured cfg = true ->
        invalid_video_id (pr_video_id req) = false -> _gpu_lock s = false ->
        fst (transcribe_progressive cfg w req s) = Raise e -> handler_error e).
Proof.
  intros cfg w d Hmk. split.
  - intros req s e Hvid Hfree. rewrite (transcribe_shape w req s d Hvid Hfree Hmk).
    cbv zeta. cbn [fst]. rewrite transcribe_job_run.
    destruct (fst (download_audio w (video_id req) d 600 _)) as [p|e0] eqn:Hd.
    + destruct (transcribe_result w) as [[g info]|msg].
      * destruct (raises g); cbn [fst]; [|discriminate].
        intros [= <-]. eexists _, _. split; [reflexivity | auto].
      * cbn [fst]. intros [= <-]. eexists _, _. split; [reflexivity | auto].
    + cbn [fst]. intros [= <-]. eapply download_audio_errors. exact Hd.
  - intros req s e Hconf Hvid Hfree.
    rewrite (transcribe_progressive_shape cfg w req s d Hconf Hvid Hfree Hmk).
    cbv zeta. cbn [fst]. rewrite (progressive_job_run cfg w req d _ Hconf).
    destruct (fst (download_audio w (pr_video_id req) d 600 _)) as [p|e0] eqn:Hd.
    + cbv zeta. destruct (transcribe_result w) as [[g info]|msg].
      * destruct (raises g); cbn [fst]; [|discriminate].
        intros [= <-]. eexists _, _. split; [reflexivity | auto].
      * cbn [fst]. intros [= <-]. eexists _, _. split; [reflexivity | auto].
    + cbn [fst]. intros [= <-]. eapply download_audio_errors. exact Hd.
Qed.

Lemma errors_are_http_once_set_up_witness :
  handler_error (HTTPException 502 (AudioTooSmall 10)).
Proof.
  apply (proj1 (errors_are_http_once_set_up sample_config (sample_world 10)
                  "/tmp/whisperx-a1b2c3d4" eq_refl)
           (mkTranscribeRequest "dQw4w9WgXcQ") idle); reflexivity.
Defined.



(** X15: a request that got its scratch directory leaves [/tmp] as it
    found it, however it ends: the directory it created is removed and no
    other directory is touched; the lock is free and no identifier is in
    flight. *)
Theorem scratch_directory_is_not_leaked :
  forall cfg w d,
    mkdtemp_result w = Ok d ->
    (forall req s,
        invalid_video_id (video_id req) = false -> _gpu_lock s = false ->
        ~ In d (tmp s) ->
        let after := snd (transcribe w req s) in
        tmp after = tmp s /\ _gpu_lock after = false /\ _currently_processing after = None) /\
    (forall req s,
        configured cfg = true ->
        invalid_video_id (pr_video_id req) = false -> _gpu_lock s = false ->
        ~ In d (tmp s) ->
        let after := snd (transcribe_progressive cfg w req s) in
        tmp after = tmp s /\ _gpu_lock after = false /\ _currently_processing after = None).
Proof.
  intros cfg w d Hmk.
  assert (Hrm : forall l, ~ In d l -> remove string_dec d (d :: l) = l).
  { intros l Hl. cbn [remove]. destruct (string_dec d d) as [_|Hne]; [|contradiction].
    now apply notin_remove. }
  split.
  - intros req s Hvid Hfree Hfresh after. subst after.
    rewrite (transcribe_shape w req s d Hvid Hfree Hmk). cbv zeta. cbn [snd].
    destruct (keeps_transcribe_job w (video_id req) d (try_entry (video_id req) d s))
      as [_ Ht].
    unfold cleaned. cbn [tmp _gpu_lock _currently_processing set_tmp set_gpu_lock
                         set_currently_processing].
    rewrite Ht. cbn [try_entry tmp set_tmp]. now rewrite (Hrm _ Hfresh).
  - intros req s Hconf Hvid Hfree Hfresh after. subst after.
    rewrite (transcribe_progressive_shape cfg w req s d Hconf Hvid Hfree Hmk).
    cbv zeta. cbn [snd].
    destruct (keeps_progressive_job cfg w req d (try_entry (pr_video_id req) d s))
      as [_ Ht].
    unfold cleaned. cbn [tmp _gpu_lock _currently_processing set_tmp set_gpu_lock
                         set_currently_processing].
    rewrite Ht. cbn [try_entry tmp set_tmp]. now rewrite (Hrm _ Hfresh).
Qed.

Lemma scratch_directory_is_not_leaked_witness :
  tmp (snd (transcribe_progressive sample_config (job_world 25 false) sample_request
              (mkState false None 0 ["/tmp/whisperx-zzzzzzzz"] [])))
  = ["/tmp/whisperx-zzzzzzzz"].
Proof.
  apply (proj2 (scratch_directory_is_not_leaked sample_config (job_world 25 false)
                  "/tmp/whisperx-a1b2c3d4" eq_refl)
           sample_request (mkState false None 0 ["/tmp/whisperx-zzzzzzzz"] [])
           eq_refl eq_refl eq_refl).
  cbn. intros [H|[]]. discriminate.
Defined.

(** X16: failures of [transcribe_progressive] before the stream.  When
    the download fails, nothing at all is sent: the tracker is not told that
    transcription began, and the failure goes out with its own code (or as
    500 when it is not an HTTPException).  When the download succeeds and
    the model cannot start, the answer is 500 and the "transcribing"
    heartbeat is the only request made.  In both cases the job does not
    count and the lock and the scratch directory are released. *)
Theorem failures_before_the_stream :
  forall cfg w req s d,
    configured cfg = true ->
    invalid_video_id (pr_video_id req) = false ->
    _gpu_lock s = false ->
    mkdtemp_result w = Ok d ->
    (forall e,
        fst (download_audio w (pr_video_id req) d 600 s) = Raise e ->
        transcribe_progressive cfg w req s =
          (Raise (as_500 e),
           mkState false None (_transcription_count s)
                   (remove string_dec d (d :: tmp s)) (network s))) /\
    (forall path msg,
        fst (download_audio w (pr_video_id req) d 600 s) = Return path ->
        transcribe_result w = Fails msg ->
        transcribe_progressive cfg w req s =
          (Raise (HTTPException 500 (Str msg)),
           mkState false None (_transcription_count s)
                   (remove string_dec d (d :: tmp s))
                   (network s ++
                    [(PostHeartbeat (transcribing_heartbeat req),
                      urlopen_ok w (PostHeartbeat (transcribing_heartbeat req))
                                 (List.length (network s)))]))).
Proof.
  intros cfg w req s d Hconf Hvid Hfree Hmk. split.
  - intros e Hd.
    rewrite (transcribe_progressive_shape cfg w req s d Hconf Hvid Hfree Hmk).
    cbv zeta. rewrite (progressive_job_run cfg w req d _ Hconf).
    rewrite (download_audio_any_state w _ d 600 _ s), Hd. reflexivity.
  - intros path msg Hd Htr.
    rewrite (transcribe_progressive_shape cfg w req s d Hconf Hvid Hfree Hmk).
    cbv zeta. rewrite (progressive_job_run cfg w req d _ Hconf).
    rewrite (download_audio_any_state w _ d 600 _ s), Hd. cbv zeta. rewrite Htr.
    reflexivity.
Qed.

Lemma failures_before_the_stream_witness :
  transcribe_progressive sample_config (sample_world 2000000000) sample_request idle =
    (Raise (HTTPException 413 (AudioTooLarge 2000000000 1500000000)),
     mkState false None 0 [] []).
Proof.
  refine (eq_trans
            (proj1 (failures_before_the_stream sample_config (sample_world 2000000000)
                      sample_request idle "/tmp/whisperx-a1b2c3d4"
                      eq_refl eq_refl eq_refl eq_refl)
               (HTTPException 413 (AudioTooLarge 2000000000 1500000000)) eq_refl) _).
  reflexivity.
Defined.

(** X17: when the stream raises after yielding some segments, an accepted
    job answers 500 with the message of the exception and does not count;
    no final flush is made, so what the store holds is what the periodic
    flushes of the loop put there. *)
Theorem stream_failure_keeps_checkpoints :
  forall cfg w req s d g info msg,
    accepted cfg w req s d g info ->
    raises g = Some msg ->
    transcribe_progressive cfg w req s =
      (Raise (HTTPException 500 (Str msg)),
       mkState false None (_transcription_count s)
               (remove string_dec d (d :: tmp s))
               (network (after_loop cfg w req d g info s))).
Proof.
  intros cfg w req s d g info msg Hacc Hraises.
  destruct (job_log cfg w req s d g info Hacc) as (okt & delta & _ & _ & Hrun).
  rewrite Hrun. unfold final_requests. rewrite Hraises. now rewrite app_nil_r.
Qed.

Lemma stream_failure_keeps_checkpoints_witness :
  let g := mkGenerator (yields (sample_stream 25)) (Some "CUDA out of memory") in
  let w := mkWorld (Ok "/tmp/whisperx-a1b2c3d4") (Ok (mkCompleted 0 "" ""))
                   ["/tmp/whisperx-a1b2c3d4/audio.webm"] (fun _ => 5000)
                   (Ok (g, sample_info 25)) (fun _ _ => true) in
  fst (transcribe_progressive sample_config w sample_request idle)
    = Raise (HTTPException 500 (Str "CUDA out of memory")) /\
  map (@List.length seg_dict)
      (upserted (network (snd (transcribe_progressive sample_config w sample_request idle))))
    = [20%nat].
Proof.
  intros g w.
  assert (Hacc : accepted sample_config w sample_request idle
                   "/tmp/whisperx-a1b2c3d4" g (sample_info 25))
    by sample_accepted.
  rewrite (stream_failure_keeps_checkpoints sample_config w sample_request idle
             "/tmp/whisperx-a1b2c3d4" g (sample_info 25) "CUDA out of memory"
             Hacc eq_refl).
  split; [reflexivity | vm_compute; reflexivity].
Defined.

(** X18: the two endpoints agree: for the same audio and the same stream,
    ended without raising, [transcribe] and [transcribe_progressive] return
    the same segments and the same duration, and the progressive response
    counts exactly those segments. *)
Theorem endpoints_agree :
  forall cfg w req s d g info,
    accepted cfg w req s d g info ->
    raises g = None ->
    exists segs,
      fst (transcribe w (mkTranscribeRequest (pr_video_id req)) s) =
        Return (TranscribeResponse segs (info_duration info)) /\
      fst (transcribe_progressive cfg w req s) =
        Return (ProgressiveResponse segs (info_duration info) (len segs)).
Proof.
  intros cfg w req s d g info Hacc Hraises.
  destruct (job_log cfg w req s d g info Hacc) as (okt & delta & _ & _ & Hrun).
  destruct Hacc as (Hconf & Hvid & Hfree & Hmk & (r & path & rest & Hr & Hrc & Hg & Hsz) & Htr).
  exists (map seg_to_dict (yields g)). split.
  - rewrite (transcribe_shape w (mkTranscribeRequest (pr_video_id req)) s d Hvid Hfree Hmk).
    cbv zeta. cbn [fst video_id]. rewrite transcribe_job_run.
    rewrite (download_audio_ok w r path rest Hr Hrc Hg Hsz). cbn [fst].
    rewrite Htr, Hraises. reflexivity.
  - rewrite Hrun, Hraises. reflexivity.
Qed.

Lemma endpoints_agree_witness :
  exists segs,
    fst (transcribe (job_world 25 true) (mkTranscribeRequest (pr_video_id sample_request)) idle)
      = Return (TranscribeResponse segs (info_duration (sample_info 25))) /\
    fst (transcribe_progressive sample_config (job_world 25 true) sample_request idle)
      = Return (ProgressiveResponse segs (info_duration (sample_info 25)) (len segs)).
Proof.
  assert (Hacc : accepted sample_config (job_world 25 true) sample_request idle
                   "/tmp/whisperx-a1b2c3d4" (sample_stream 25) (sample_info 25))
    by sample_accepted.
  exact (endpoints_agree sample_config (job_world 25 true) sample_request idle
           "/tmp/whisperx-a1b2c3d4" (sample_stream 25) (sample_info 25) Hacc eq_refl).
Defined.

(** ** The flush schedule *)

Lemma periodic_points_closed :
  forall k n l,
    (l <= n < l + 20)%nat ->
    periodic_points k n l = map (fun i => l + 20 * i)%nat (seq 1 ((n - l + k) / 20)).
Proof.
  induction k as [|k IH]; intros n l Hnl.
  - rewrite Nat.add_0_r, Nat.div_small by lia. reflexivity.
  - rewrite periodic_points_S. destruct (Nat.leb_spec 20 (S n - l)) as [Hge|Hlt].
    + assert (Hn : S n = (l + 20)%nat) by lia.
      rewrite (IH (S n) (S n)) by lia.
      replace (n - l + S k)%nat with (1 * 20 + k)%nat by lia.
      rewrite Nat.div_add_l by lia.
      replace (S n - S n + k)%nat with k by lia.
      cbn [Nat.add seq map]. f_equal; [lia|].
      rewrite <- (seq_shift (k / 20) 1), map_map. apply map_ext. intros i. lia.
    + rewrite (IH (S n) l) by lia. do 3 f_equal. lia.
Qed.

(** X19: with a store that accepts every upsert, the loop of an accepted
    job over a stream of n segments flushes after segments 20, 40, ..., up
    to the last multiple of 20 not above n, and at no other point; each
    flush sends all segments held at that point. *)
Theorem periodic_flush_schedule :
  forall cfg w req s d g info,
    accepted cfg w req s d g info ->
    (forall body n, urlopen_ok w (PostTranscripts body) n = true) ->
    let segs := map seg_to_dict (yields g) in
    upserted (network (after_loop cfg w req d g info s)) =
      (upserted (network s) ++
       map (fun i => firstn (20 * i) segs) (seq 1 (List.length (yields g) / 20)))%list.
Proof.
  intros cfg w req s d g info (Hconf & _) Hok segs.
  destruct (flush_loop_all_ok cfg w Hconf req (float_or (info_duration info) 600) Hok
              (yields g) [] 0%nat (loop_entry cfg w req d s))
    as (lfc' & delta & E & Hup).
  unfold after_loop. change (Z.of_nat 0) with 0 in E. rewrite E. cbn [snd].
  rewrite (loop_entry_log cfg w req d s Hconf), with_log_app.
  rewrite network_with_log, upserted_app. cbn [set_tmp network].
  rewrite upserted_app, Hup. cbn [upserted flat_map fst app List.length].
  rewrite periodic_points_closed by lia.
  rewrite Nat.sub_0_r, Nat.add_0_l, map_map. reflexivity.
Qed.

Lemma periodic_flush_schedule_witness :
  map (@List.length seg_dict)
      (upserted (network (after_loop sample_config (job_world 65 true) sample_request
                            "/tmp/whisperx-a1b2c3d4" (sample_stream 65) (sample_info 65) idle)))
  = [20; 40; 60]%nat.
Proof.
  assert (Hacc : accepted sample_config (job_world 65 true) sample_request idle
                   "/tmp/whisperx-a1b2c3d4" (sample_stream 65) (sample_info 65))
    by sample_accepted.
  rewrite (periodic_flush_schedule sample_config (job_world 65 true) sample_request idle
             "/tmp/whisperx-a1b2c3d4" (sample_stream 65) (sample_info 65) Hacc
             (fun _ _ => eq_refl)).
  vm_compute. reflexivity.
Defined.

(** X20: the loop keeps the last flushed count between zero and the number
    of segments held, and never lowers it.  If moreover fewer than 20
    segments were unflushed at the start and the store accepts every upsert,
    fewer than 20 are unflushed at the end: what a crash can lose is less
    than one flush interval. *)
Theorem last_flush_count_invariant :
  forall cfg w req est gen segs lfc s,
    configured cfg = true ->
    0 <= lfc <= len segs ->
    exists lfc' s',
      flush_loop cfg w req est gen segs lfc s =
        (Return ((segs ++ map seg_to_dict gen)%list, lfc'), s') /\
      lfc <= lfc' <= len (segs ++ map seg_to_dict gen) /\
      ((forall body n, urlopen_ok w (PostTranscripts body) n = true) ->
       len segs - lfc < flush_interval ->
       len (segs ++ map seg_to_dict gen) - lfc' < flush_interval).
Proof.
  intros cfg w req est gen segs lfc s Hconf. revert segs lfc s.
  induction gen as [|x gen IH]; intros segs lfc s Hlfc.
  - exists lfc, s. cbn [flush_loop map]. unfold ret. rewrite app_nil_r.
    repeat split; try lia; auto.
  - cbn [flush_loop map]. unfold bind. rewrite (loop_body_run cfg w Hconf). cbv zeta.
    assert (Hall : (segs ++ seg_to_dict x :: map seg_to_dict gen)%list
                   = ((segs ++ [seg_to_dict x]) ++ map seg_to_dict gen)%list)
      by (now rewrite <- app_assoc).
    rewrite Hall.
    pose proof (len_snoc _ segs (seg_to_dict x)) as Hsn.
    destruct (Z.geb_spec (len (segs ++ [seg_to_dict x]) - lfc) flush_interval) as [Hge|Hlt].
    + destruct (urlopen_ok w _ (List.length (network s))) eqn:Hup; cbn [fst snd].
      * match goal with
        | |- context [flush_loop _ _ _ _ _ ?sg ?l ?st] =>
            destruct (IH sg l st) as (lfc' & s' & E & Hb & Hok); [lia|]
        end.
        exists lfc', s'. split; [exact E|]. split; [lia|].
        intros Hall_ok Hstart. apply Hok; [exact Hall_ok|]. unfold flush_interval. lia.
      * match goal with
        | |- context [flush_loop _ _ _ _ _ ?sg ?l ?st] =>
            destruct (IH sg l st) as (lfc' & s' & E & Hb & Hok); [lia|]
        end.
        exists lfc', s'. split; [exact E|]. split; [lia|].
        intros Hall_ok Hstart. rewrite Hall_ok in Hup. discriminate.
    + cbn [fst snd].
      destruct (IH (segs ++ [seg_to_dict x])%list lfc s) as (lfc' & s' & E & Hb & Hok); [lia|].
      exists lfc', s'. split; [exact E|]. split; [lia|].
      intros Hall_ok Hstart. apply Hok; [exact Hall_ok | exact Hlt].
Qed.

Lemma last_flush_count_invariant_witness :
  exists lfc' s',
    flush_loop sample_config (job_world 45 true) sample_request 135
               (yields (sample_stream 45)) [] 0 idle =
      (Return (([] ++ map seg_to_dict (yields (sample_stream 45)))%list, lfc'), s') /\
    0 <= lfc' <= len ([] ++ map seg_to_dict (yields (sample_stream 45))) /\
    ((forall body n, urlopen_ok (job_world 45 true) (PostTranscripts body) n = true) ->
     len (@nil seg_dict) - 0 < flush_interval ->
     len ([] ++ map seg_to_dict (yields (sample_stream 45))) - lfc' < flush_interval).
Proof.
  apply (last_flush_count_invariant sample_config (job_world 45 true) sample_request 135
           (yields (sample_stream 45)) [] 0 idle eq_refl).
  cbn. lia.
Defined.

(** ** What the checkpoints carry *)

Lemma firstn_snoc_app :
  forall (A : Type) (l : list A) (x : A) (rest : list A),
    firstn (S (List.length l)) (l ++ x :: rest) = (l ++ [x])%list.
Proof.
  intros A l x rest. induction l as [|a l IH]; [reflexivity|].
  cbn [List.length app firstn]. f_equal. exact IH.
Qed.

Lemma loop_log_upserts :
  forall req est segs gen delta,
    loop_log req est segs gen delta ->
    Forall (fun c =>
              forall body, fst c = PostTranscripts body ->
                exists k,
                  (List.length segs < k <= List.length (segs ++ map seg_to_dict gen))%nat /\
                  body = payload_of (pr_video_id req)
                           (firstn k (segs ++ map seg_to_dict gen)) "whisperx")
           delta.
Proof.
  intros req est segs gen delta H.
  induction H as [segs | segs x gen delta H IH | segs x gen delta H IH
                 | segs x gen delta okh H IH].
  - constructor.
  - cbn [map]. rewrite <- app_assoc in IH. cbn [app] in IH.
    eapply Forall_impl; [|exact IH]. intros c Hc body Hb.
    destruct (Hc body Hb) as (k & Hk & ->). exists k. split; [|reflexivity].
    rewrite length_app in Hk. cbn [List.length] in Hk. lia.
  - cbn [map]. rewrite <- app_assoc in IH. cbn [app] in IH. constructor.
    + intros body [= <-]. exists (S (List.length segs)). split.
      * rewrite length_app. cbn [List.length]. lia.
      * now rewrite firstn_snoc_app.
    + eapply Forall_impl; [|exact IH]. intros c Hc body Hb.
      destruct (Hc body Hb) as (k & Hk & ->). exists k. split; [|reflexivity].
      rewrite length_app in Hk. cbn [List.length] in Hk. lia.
  - cbn [map]. rewrite <- app_assoc in IH. cbn [app] in IH. constructor.
    + intros body [= <-]. exists (S (List.length segs)). split.
      * rewrite length_app. cbn [List.length]. lia.
      * now rewrite firstn_snoc_app.
    + constructor; [intros body Hb; discriminate|].
      eapply Forall_impl; [|exact IH]. intros c Hc body Hb.
      destruct (Hc body Hb) as (k & Hk & ->). exists k. split; [|reflexivity].
      rewrite length_app in Hk. cbn [List.length] in Hk. lia.
Qed.

(** X21: every upsert that an accepted job makes, periodic or final,
    carries a non-empty initial part of the segments of the stream, in
    order, under the identifier of the request, with [segment_count] the
    number of segments carried: never a delta, never something else. *)
Theorem checkpoints_are_prefixes :
  forall cfg w req s d g info,
    accepted cfg w req s d g info ->
    let segs := map seg_to_dict (yields g) in
    exists delta,
      network (snd (transcribe_progressive cfg w req s)) = (network s ++ delta)%list /\
      forall body ok,
        In (PostTranscripts body, ok) delta ->
        exists k,
          (1 <= k <= List.length segs)%nat /\
          up_segments body = firstn k segs /\
          up_segment_count body = Z.of_nat k /\
          up_video_id body = pr_video_id req /\
          up_source body = "whisperx".
Proof.
  intros cfg w req s d g info Hacc segs.
  destruct (job_log cfg w req s d g info Hacc) as (okt & delta & Hlog & Hnet & Hrun).
  exists ((PostHeartbeat (transcribing_heartbeat req), okt) :: delta ++
          final_requests w req g (network (after_loop cfg w req d g info s)))%list.
  split.
  - rewrite Hrun. cbn [snd network]. rewrite Hnet, <- app_assoc. reflexivity.
  - intros body ok Hin.
    assert (Hpay : forall k, (1 <= k <= List.length segs)%nat ->
                     body = payload_of (pr_video_id req) (firstn k segs) "whisperx" ->
                     exists k0,
                       (1 <= k0 <= List.length segs)%nat /\
                       up_segments body = firstn k0 segs /\
                       up_segment_count body = Z.of_nat k0 /\
                       up_video_id body = pr_video_id req /\
                       up_source body = "whisperx").
    { intros k Hk ->. exists k. cbn [payload_of up_segments up_segment_count up_video_id
                                     up_source]. repeat split; try lia.
      unfold len. rewrite length_firstn. f_equal. lia. }
    destruct Hin as [Hin | Hin]; [discriminate|].
    apply in_app_or in Hin as [Hin | Hin].
    + pose proof (loop_log_upserts _ _ _ _ _ Hlog) as Hup.
      rewrite Forall_forall in Hup.
      destruct (Hup _ Hin body eq_refl) as (k & Hk & Hb). cbn [app List.length] in Hk, Hb.
      apply (Hpay k); [fold segs in Hk; lia | exact Hb].
    + unfold final_requests in Hin. destruct (raises g); [destruct Hin|].
      fold segs in Hin. destruct segs as [|a l] eqn:Hs; [destruct Hin|].
      destruct Hin as [[= <- _] | []].
      apply (Hpay (List.length (a :: l))); [cbn [List.length]; lia|].
      now rewrite firstn_all.
Qed.

Lemma checkpoints_are_prefixes_witness :
  exists delta,
    network (snd (transcribe_progressive sample_config (job_world 25 true)
                    sample_request idle)) = (network idle ++ delta)%list /\
    forall body ok,
      In (PostTranscripts body, ok) delta ->
      exists k,
        (1 <= k <= List.length (map seg_to_dict (yields (sample_stream 25))))%nat /\
        up_segments body = firstn k (map seg_to_dict (yields (sample_stream 25))) /\
        up_segment_count body = Z.of_nat k /\
        up_video_id body = pr_video_id sample_request /\
        up_source body = "whisperx".
Proof.
  assert (Hacc : accepted sample_config (job_world 25 true) sample_request idle
                   "/tmp/whisperx-a1b2c3d4" (sample_stream 25) (sample_info 25))
    by sample_accepted.
  exact (checkpoints_are_prefixes sample_config (job_world 25 true) sample_request idle
           "/tmp/whisperx-a1b2c3d4" (sample_stream 25) (sample_info 25) Hacc).
Defined.

Lemma loop_log_heartbeat_follows_upsert :
  forall req est segs gen delta,
    loop_log req est segs gen delta ->
    forall i hb ok,
      nth_error delta i = Some (PostHeartbeat hb, ok) ->
      exists j body,
        i = S j /\ nth_error delta j = Some (PostTranscripts body, true) /\
        p_segments_written hb = Some (up_segment_count body).
Proof.
  intros req est segs gen delta H.
  induction H as [segs | segs x gen delta H IH | segs x gen delta H IH
                 | segs x gen delta okh H IH]; intros i hb ok Hi.
  - destruct i; discriminate.
  - eauto.
  - destruct i as [|i]; [discriminate|]. cbn [nth_error] in Hi.
    destruct (IH i hb ok Hi) as (j & body & -> & Hj & Hw).
    exists (S j), body. repeat split; assumption.
  - destruct i as [|[|i]]; [discriminate| |].
    + cbn [nth_error] in Hi. injection Hi as <- _.
      eexists 0%nat, _. repeat split.
    + cbn [nth_error] in Hi.
      destruct (IH i hb ok Hi) as (j & body & -> & Hj & Hw).
      exists (S (S j)), body. repeat split; assumption.
Qed.

(** X22: a progress heartbeat never claims more than the store holds: in
    the requests of an accepted job, every heartbeat that carries a
    percentage comes right after an upsert that succeeded, and its
    [segments_written] is the [segment_count] of that upsert. *)
Theorem heartbeat_follows_successful_upsert :
  forall cfg w req s d g info,
    accepted cfg w req s d g info ->
    exists delta,
      network (snd (transcribe_progressive cfg w req s)) = (network s ++ delta)%list /\
      forall i hb ok,
        nth_error delta i = Some (PostHeartbeat hb, ok) ->
        p_progress_pct hb <> None ->
        exists j body,
          i = S j /\ nth_error delta j = Some (PostTranscripts body, true) /\
          p_segments_written hb = Some (up_segment_count body).
Proof.
  intros cfg w req s d g info Hacc.
  destruct (job_log cfg w req s d g info Hacc) as (okt & delta & Hlog & Hnet & Hrun).
  exists ((PostHeartbeat (transcribing_heartbeat req), okt) :: delta ++
          final_requests w req g (network (after_loop cfg w req d g info s)))%list.
  split.
  - rewrite Hrun. cbn [snd network]. rewrite Hnet, <- app_assoc. reflexivity.
  - intros i hb ok Hi Hpct.
    destruct i as [|i]; [cbn [nth_error] in Hi; injection Hi as <- _; now elim Hpct|].
    cbn [nth_error] in Hi.
    destruct (Nat.lt_ge_cases i (List.length delta)) as [Hlt|Hge].
    + rewrite nth_error_app1 in Hi by exact Hlt.
      destruct (loop_log_heartbeat_follows_upsert _ _ _ _ _ Hlog i hb ok Hi)
        as (j & body & -> & Hj & Hw).
      exists (S j), body. repeat split; [|exact Hw].
      cbn [nth_error]. rewrite nth_error_app1; [exact Hj|].
      apply nth_error_Some. rewrite Hj. discriminate.
    + rewrite nth_error_app2 in Hi by exact Hge. exfalso.
      unfold final_requests in Hi.
      destruct (raises g); [destruct (i - List.length delta)%nat; discriminate|].
      destruct (map seg_to_dict (yields g));
        [destruct (i - List.length delta)%nat; discriminate|].
      destruct (i - List.length delta)%nat as [|n]; [discriminate|].
      destruct n; discriminate.
Qed.

Lemma heartbeat_follows_successful_upsert_witness :
  exists delta,
    network (snd (transcribe_progressive sample_config (job_world 25 true)
                    sample_request idle)) = (network idle ++ delta)%list /\
    forall i hb ok,
      nth_error delta i = Some (PostHeartbeat hb, ok) ->
      p_progress_pct hb <> None ->
      exists j body,
        i = S j /\ nth_error delta j = Some (PostTranscripts body, true) /\
        p_segments_written hb = Some (up_segment_count body).
Proof.
  assert (Hacc : accepted sample_config (job_world 25 true) sample_request idle
                   "/tmp/whisperx-a1b2c3d4" (sample_stream 25) (sample_info 25))
    by sample_accepted.
  exact (heartbeat_follows_successful_upsert sample_config (job_world 25 true)
           sample_request idle "/tmp/whisperx-a1b2c3d4" (sample_stream 25) (sample_info 25)
           Hacc).
Defined.

(** ** More on the janitor *)

Lemma filter_all :
  forall (A : Type) (f : A -> bool) (l : list A),
    (forall x, In x l -> f x = true) -> filter f l = l.
Proof.
  intros A f l. induction l as [|a l IH]; intros H; [reflexivity|].
  cbn [filter]. rewrite (H a (or_introl eq_refl)). f_equal.
  apply IH. intros x Hx. apply H. now right.
Qed.

Lemma filter_filter :
  forall (A : Type) (f g : A -> bool) (l : list A),
    filter f (filter g l) = filter (fun x => g x && f x) l.
Proof.
  intros A f g l. induction l as [|a l IH]; [reflexivity|].
  cbn [filter]. destruct (g a); cbn [andb filter]; [|exact IH].
  destruct (f a); now rewrite IH.
Qed.

Lemma sweep_filter :
  forall hf cutoff paths fs,
    sweep hf cutoff paths fs = filter (fun e => negb (doomed hf cutoff paths e)) fs.
Proof.
  intros hf cutoff. induction paths as [|p paths IH]; intros fs.
  - cbn [sweep doomed existsb negb]. symmetry. now apply filter_all.
  - cbn [sweep]. rewrite IH.
    assert (E : (if is_orphan hf cutoff p then rmtree_entry p fs else fs) =
                filter (fun e => negb (is_orphan hf cutoff p && is_dir p &&
                                       (name e =? name p)%string)) fs).
    { unfold rmtree_entry. destruct (is_orphan hf cutoff p); destruct (is_dir p);
        cbn [andb negb]; try (symmetry; now apply filter_all). reflexivity. }
    rewrite E, filter_filter. apply filter_ext. intros e.
    cbn [doomed existsb]. now rewrite negb_orb.
Qed.

Lemma doomed_true :
  forall hf cutoff paths e,
    doomed hf cutoff paths e = true <->
    exists p, In p paths /\ is_orphan hf cutoff p = true /\ is_dir p = true /\
              name e = name p.
Proof.
  intros hf cutoff paths e. unfold doomed. rewrite existsb_exists. split.
  - intros (p & Hp & H). apply andb_true_iff in H as [H Hn].
    apply andb_true_iff in H as [Ho Hd]. apply String.eqb_eq in Hn. eauto 6.
  - intros (p & Hp & Ho & Hd & Hn). exists p. split; [exact Hp|].
    rewrite Ho, Hd. cbn [andb]. now apply String.eqb_eq.
Qed.

(** X23: the sweep is idempotent: sweeping what a sweep left, at the same
    time, removes nothing more. *)
Theorem janitor_sweep_idempotent :
  forall cfg now fs,
    cleanup_orphan_temps cfg now (cleanup_orphan_temps cfg now fs)
    = cleanup_orphan_temps cfg now fs.
Proof.
  intros cfg now fs. unfold cleanup_orphan_temps. cbv zeta.
  set (hf := HF_HOME cfg). set (c := (now - 3600)%Q).
  rewrite (sweep_filter hf c (glob_whisperx (sweep hf c (glob_whisperx fs) fs))).
  apply filter_all. intros e He.
  destruct (doomed hf c (glob_whisperx (sweep hf c (glob_whisperx fs) fs)) e) eqn:Hd;
    [|reflexivity].
  exfalso. apply doomed_true in Hd as (p & Hp & Ho & Hdir & Hn).
  unfold glob_whisperx in Hp. apply filter_In in Hp as [Hp Hstart].
  rewrite sweep_filter in Hp. apply filter_In in Hp as [Hpfs Hkeep].
  apply negb_true_iff in Hkeep.
  assert (Hdp : doomed hf c (glob_whisperx fs) p = true).
  { apply doomed_true. exists p. repeat split; try assumption.
    unfold glob_whisperx. apply filter_In. now split. }
  unfold glob_whisperx in Hdp. congruence.
Qed.

Lemma is_orphan_later :
  forall hf c1 c2 p,
    (c1 <= c2)%Q -> is_orphan hf c1 p = true -> is_orphan hf c2 p = true.
Proof.
  intros hf c1 c2 p Hc H. apply is_orphan_iff in H as (Hs & Hl & Hh & m & Hm & Hlt).
  apply is_orphan_iff. repeat split; try assumption.
  exists m. split; [exact Hm|]. eapply Qlt_le_trans; eauto.
Qed.

(** X24: a later sweep removes at least what an earlier one would: every
    entry that survives the sweep at a later time also survives it at an
    earlier time. *)
Theorem janitor_sweep_later_removes_more :
  forall cfg now1 now2 fs e,
    (now1 <= now2)%Q ->
    In e (cleanup_orphan_temps cfg now2 fs) ->
    In e (cleanup_orphan_temps cfg now1 fs).
Proof.
  intros cfg now1 now2 fs e Hnow. unfold cleanup_orphan_temps. cbv zeta.
  rewrite !sweep_filter, !filter_In. intros [He Hk]. split; [exact He|].
  apply negb_true_iff in Hk. apply negb_true_iff.
  destruct (doomed (HF_HOME cfg) (now1 - 3600) (glob_whisperx fs) e) eqn:Hd; [|reflexivity].
  apply doomed_true in Hd as (p & Hp & Ho & Hdir & Hn).
  assert (Hd2 : doomed (HF_HOME cfg) (now2 - 3600) (glob_whisperx fs) e = true).
  { apply doomed_true. exists p. repeat split; try assumption.
    eapply is_orphan_later; [|exact Ho]. lra. }
  congruence.
Qed.

Lemma janitor_sweep_later_removes_more_witness :
  In (mkEntry "whisperx-fresh123" true (Ok 9000%Q))
     (cleanup_orphan_temps sample_config 5000 sample_tmp).
Proof.
  apply (janitor_sweep_later_removes_more sample_config 5000 10000 sample_tmp).
  - vm_compute. discriminate.
  - vm_compute. auto.
Defined.

Lemma whisperx_name :
  forall suffix,
    startswith ("whisperx-" ++ suffix) "whisperx-" = true /\
    str_len ("whisperx-" ++ suffix) = 9 + Z.of_nat (String.length suffix).
Proof.
  intros suffix. split.
  - unfold startswith. cbn. destruct suffix; reflexivity.
  - unfold str_len. cbn [append String.length]. lia.
Qed.

(** X25: which names the sweep takes for scratch directories: an entry
    named "whisperx-" followed by a suffix is a candidate exactly when the
    suffix has at least 6 characters.  So a directory that [mkdtemp] made
    (8 characters after the prefix) is removed once it is older than an
    hour, unless its path is the configured model cache; and so is any
    other old directory whose name is "whisperx-" plus 6 characters or
    more. *)
Theorem janitor_candidate_names :
  forall cfg now fs suffix mtime,
    NoDup (map name fs) ->
    In (mkEntry ("whisperx-" ++ suffix) true (Ok mtime)) fs ->
    (~ In (mkEntry ("whisperx-" ++ suffix) true (Ok mtime)) (cleanup_orphan_temps cfg now fs)
     <->
     (6 <= String.length suffix)%nat /\
     (mtime < now - 3600)%Q /\
     ~ (HF_HOME cfg <> "" /\ "/tmp/whisperx-" ++ suffix = HF_HOME cfg)).
Proof.
  intros cfg now fs suffix mtime Hnd He.
  set (e := mkEntry ("whisperx-" ++ suffix) true (Ok mtime)) in *.
  destruct (whisperx_name suffix) as [Hstart Hlen].
  assert (Hkey : ~ In e (cleanup_orphan_temps cfg now fs) <->
                 is_orphan (HF_HOME cfg) (now - 3600) e = true).
  { unfold cleanup_orphan_temps. cbv zeta. rewrite sweep_filter, filter_In.
    cbv beta. split.
    - intros Hnot.
      remember (doomed (HF_HOME cfg) (now - 3600) (glob_whisperx fs) e) as b eqn:Hd.
      symmetry in Hd. destruct b.
      + apply doomed_true in Hd as (p & Hp & Ho & Hdir & Hn).
        unfold glob_whisperx in Hp. apply filter_In in Hp as [Hp _].
        assert (p = e) by (eapply NoDup_map_eq; eauto). now subst p.
      + exfalso. apply Hnot. split; [exact He | reflexivity].
    - intros Ho [_ Hk]. apply negb_true_iff in Hk.
      assert (Hd : doomed (HF_HOME cfg) (now - 3600) (glob_whisperx fs) e = true).
      { apply doomed_true. exists e. repeat split; try assumption.
        unfold glob_whisperx. apply filter_In. now split. }
      congruence. }
  rewrite Hkey, is_orphan_iff. subst e. cbn [name st_mtime]. unfold path_str. cbn [name].
  rewrite Hlen. split.
  - intros (_ & Hl & Hh & m & [= <-] & Hlt). repeat split; [lia | exact Hlt | exact Hh].
  - intros (Hl & Hlt & Hh). repeat split; [exact Hstart | lia | exact Hh | eauto].
Qed.

Lemma janitor_candidate_names_witness :
  ~ In (mkEntry ("whisperx-" ++ "a1b2c3d4") true (Ok 1000%Q))
       (cleanup_orphan_temps sample_config 10000 sample_tmp).
Proof.
  assert (Hnd : NoDup (map name sample_tmp)).
  { repeat (constructor; [simpl; intuition discriminate|]). constructor. }
  apply (proj2 (janitor_candidate_names sample_config 10000 sample_tmp "a1b2c3d4" 1000
                  Hnd (or_introl eq_refl))).
  split; [|split].
  - cbn. lia.
  - vm_compute. reflexivity.
  - intros [_ H]. vm_compute in H. discriminate.
Defined.

(** ** get_model *)

(** X26: the speech model is loaded at most once: after a call of
    [get_model] that returned a model, every later call returns that same
    model without loading, whatever the loader would do then; after a call
    that failed, nothing is kept and the next call loads again. *)
Theorem whisperx_get_model_loads_once :
  forall (Model : Type) (load load' : outcome Model) (st : option Model),
    let first := WhisperxModel.get_model Model load st in
    (forall m, fst first = Return m ->
       WhisperxModel.get_model Model load' (snd first) = (Return m, Some m)) /\
    (forall e, fst first = Raise e ->
       WhisperxModel.get_model Model load' (snd first)
       = WhisperxModel.get_model Model load' None).
Proof.
  intros Model load load' st first. subst first. unfold WhisperxModel.get_model.
  destruct st as [m0|]; [|destruct load as [m0|msg]]; cbn [fst snd]; split;
    try (intros m [= <-]; reflexivity); try discriminate; try reflexivity.
Qed.

Lemma whisperx_get_model_loads_once_witness :
  WhisperxModel.get_model string (Fails "CUDA error: out of memory")
    (snd (WhisperxModel.get_model string (Ok "large-v3") None))
  = (Return "large-v3", Some "large-v3").
Proof.
  apply (proj1 (whisperx_get_model_loads_once string (Ok "large-v3")
                  (Fails "CUDA error: out of memory") None)).
  reflexivity.
Defined.

(** X27: in the embedding service the global is set before the model is
    moved to the GPU.  If loading succeeds and the move fails, the call
    raises, yet the model that was never moved stays in the global, and
    every later call returns it without trying the move again. *)
Theorem embedding_get_model_keeps_unmoved_model :
  forall (Model : Type) (load load' : outcome Model)
         (to_cuda to_cuda' : Model -> outcome Model) (m : Model) (msg : string),
    load = Ok m ->
    to_cuda m = Fails msg ->
    let first := EmbeddingModel.get_model Model load to_cuda None in
    fst first = Raise (Exception msg) /\
    EmbeddingModel.get_model Model load' to_cuda' (snd first) = (Return m, Some m).
Proof.
  intros Model load load' to_cuda to_cuda' m msg Hload Hcuda first. subst first.
  unfold EmbeddingModel.get_model. rewrite Hload, Hcuda. split; reflexivity.
Qed.

Lemma embedding_get_model_keeps_unmoved_model_witness :
  EmbeddingModel.get_model string (Ok "nomic") (fun m => Ok ("cuda:" ++ m))
    (snd (EmbeddingModel.get_model string (Ok "nomic")
            (fun _ => Fails "CUDA error: out of memory") None))
  = (Return "nomic", Some "nomic").
Proof.
  exact (proj2 (embedding_get_model_keeps_unmoved_model string (Ok "nomic") (Ok "nomic")
                  (fun _ => Fails "CUDA error: out of memory")
                  (fun m => Ok ("cuda:" ++ m)) "nomic" "CUDA error: out of memory"
                  eq_refl eq_refl)).
Defined.

(** ** embed *)

(** X28: [embed] knows two input types only: every [input_type] other than
    exactly "document" is handled as a query. *)
Theorem embed_other_input_type_is_query :
  forall (encode : list string -> outcome (list (list Q))) (txts : list string)
         (input_type : string),
    input_type <> "document" ->
    Embedding.embed encode (Embedding.mkEmbedRequest txts input_type)
    = Embedding.embed encode (Embedding.mkEmbedRequest txts "query").
Proof.
  intros encode txts it Hit. unfold Embedding.embed.
  cbn [Embedding.texts Embedding.input_type].
  destruct (String.eqb_spec it "document") as [E|_]; [contradiction|]. reflexivity.
Qed.

Lemma embed_other_input_type_is_query_witness :
  Embedding.embed (fun l => Ok (map (fun _ => [1%Q]) l))
                  (Embedding.mkEmbedRequest ["hello"] "Document")
  = Embedding.embed (fun l => Ok (map (fun _ => [1%Q]) l))
                    (Embedding.mkEmbedRequest ["hello"] "query").
Proof.
  apply embed_other_input_type_is_query. discriminate.
Defined.

(** X29: the model is only ever given the texts of the request with a
    task prefix: two models that agree on every list that has as many
    entries as the request and whose every entry starts with "search_" give
    the same answer to the request. *)
Theorem embed_calls_model_on_prefixed_texts :
  forall (encode1 encode2 : list string -> outcome (list (list Q)))
         (req : Embedding.EmbedRequest),
    (forall l,
        List.length l = List.length (Embedding.texts req) ->
        Forall (fun t => prefix "search_" t = true) l ->
        encode1 l = encode2 l) ->
    Embedding.embed encode1 req = Embedding.embed encode2 req.
Proof.
  intros encode1 encode2 req H. unfold Embedding.embed.
  destruct (Embedding.texts req) as [|t ts] eqn:Ht; [reflexivity|].
  destruct (len (t :: ts) >? 256); [reflexivity|].
  rewrite H; [reflexivity | now rewrite length_map |].
  apply Forall_forall. intros x Hx. apply in_map_iff in Hx as (y & <- & _).
  destruct (Embedding.input_type req =? "document")%string; cbn; destruct y; reflexivity.
Qed.

Lemma embed_calls_model_on_prefixed_texts_witness :
  Embedding.embed (fun l => Ok (map (fun _ => [1%Q]) l))
                  (Embedding.mkEmbedRequest ["hello"] "document")
  = Embedding.embed (fun l => match l with
                              | [_] => Ok [[1%Q]]
                              | _ => Fails "never called"
                              end)
                    (Embedding.mkEmbedRequest ["hello"] "document").
Proof.
  apply embed_calls_model_on_prefixed_texts.
  intros l Hl _. destruct l as [|a [|b l]]; try discriminate. reflexivity.
Defined.
